(** * Session Board: label placement, density intensity, brush matching,
      popover placement and board navigation

    A shallow embedding of the activity-chart and session-board code:
    - [selectLabelIndices], [maxCount] and the per-bar intensity of the
      daily-bar [ContributionGrid];
    - [matchesBrush] of [utils/brushMatchers.ts];
    - the popover geometry of [ExpandedCard] and the empty-entry guard of
      [InteractionCard];
    - the navigation controller of the board.

    JavaScript numbers that hold array lengths and indices are integers
    ([Z]); pixel coordinates and ratios are rationals ([Q]), so [+], [-],
    [/] and the comparisons are the exact ones; strings are sequences of
    UTF-16 code units. *)

From Stdlib Require Import ZArith QArith Qround Qminmax Lqa Lia Ascii String.
From Stdlib Require Import DecimalNat DecimalString.
From stdpp Require Import base tactics option list sorting gmap.

Local Open Scope Z_scope.

(** ** JavaScript strings *)

Module JsString.

(** A string is its sequence of 16-bit code units. *)
Definition code_unit := N.
Definition jsstring := list code_unit.

(** The code units of an ASCII literal. *)
Definition js (s : string) : jsstring :=
  map N_of_ascii (list_ascii_of_string s).

(** [a === b] on strings. *)
Definition str_eqb (a b : jsstring) : bool := bool_decide (a = b).

(** [s.substring(start)] for [0 <= start]. *)
Definition substring_from (start : nat) (s : jsstring) : jsstring :=
  drop start s.

(** [s.endsWith(v)]: with [end = s.length] and [start = end - v.length],
    false when [start < 0], otherwise whether the code units of [s] from
    [start] on are those of [v]. *)
Definition endsWith (s v : jsstring) : bool :=
  let e := Z.of_nat (length s) in
  let start := e - Z.of_nat (length v) in
  if start <? 0 then false
  else str_eqb (substring_from (Z.to_nat start) s) v.

(** Whether [v] occurs in [s] at position [0]. *)
Fixpoint startsWith (s v : jsstring) : bool :=
  match v, s with
  | [], _ => true
  | _ :: _, [] => false
  | c :: v', d :: s' => (c =? d)%N && startsWith s' v'
  end.

(** [s.includes(v)]: whether [v] occurs in [s] at some position. *)
Fixpoint includes (s v : jsstring) : bool :=
  startsWith s v ||
  match s with
  | [] => false
  | _ :: s' => includes s' v
  end.

(** The code units [trim] strips: WhiteSpace and LineTerminator. *)
Definition isWhiteSpace (c : code_unit) : bool :=
  ((c =? 0x0009) || (c =? 0x000A) || (c =? 0x000B) || (c =? 0x000C)
   || (c =? 0x000D) || (c =? 0x0020) || (c =? 0x00A0) || (c =? 0x1680)
   || ((0x2000 <=? c) && (c <=? 0x200A))
   || (c =? 0x2028) || (c =? 0x2029) || (c =? 0x202F) || (c =? 0x205F)
   || (c =? 0x3000) || (c =? 0xFEFF))%N.

Fixpoint trimStart (s : jsstring) : jsstring :=
  match s with
  | [] => []
  | c :: s' => if isWhiteSpace c then trimStart s' else s
  end.

Definition trimEnd (s : jsstring) : jsstring :=
  rev (trimStart (rev s)).

(** [s.trim()]. *)
Definition trim (s : jsstring) : jsstring := trimEnd (trimStart s).

(** Truthiness of a string: non-empty. *)
Definition truthy (s : jsstring) : bool :=
  match s with [] => false | _ :: _ => true end.

End JsString.

(** ** LabelPlacer: the daily-bar chart's axis labels *)

Module LabelPlacer.

(** Layout constants. *)
Definition BAR_WIDTH : Z := 14.
Definition BAR_GAP : Z := 3.
Definition SLOT_WIDTH : Z := BAR_WIDTH + BAR_GAP.
Definition MIN_LABEL_GAP_PX : Z := 44.

(** [Math.ceil(MIN_LABEL_GAP_PX / SLOT_WIDTH)]. *)
Definition minSlots : Z :=
  Qceiling (inject_Z MIN_LABEL_GAP_PX / inject_Z SLOT_WIDTH).

(** [Math.max(2, Math.floor(minSlots * 0.55))]. *)
Definition finalMinSlots : Z :=
  Z.max 2 (Qfloor (inject_Z minSlots * (55 # 100))).

(** [indices[indices.length - 1] ?? 0]. *)
Definition lastOr0 (indices : list Z) : Z := default 0 (last indices).

(** One iteration of the scan: push [i] when far enough from the last
    pushed index. *)
Definition scan_step (indices : list Z) (i : Z) : list Z :=
  let last := lastOr0 indices in
  if i - last >=? minSlots then indices ++ [i] else indices.

(** [for (let i = 1; i < count - 1; i++)] starting from [indices]. *)
Definition scan (count : Z) (indices : list Z) : list Z :=
  fold_left scan_step (seqZ 1 (count - 2)) indices.

Definition selectLabelIndices (count : Z) : list Z :=
  if count =? 0 then []
  else if count =? 1 then [0]
  else
    let indices := scan count [0] in
    let last := lastOr0 indices in
    let lastIdx := count - 1 in
    if (lastIdx >? last) && (lastIdx - last >=? finalMinSlots)
    then indices ++ [lastIdx]
    else indices.

(** *** The algorithm as the specification words it *)

(** Walk the indices left to right; include [i] iff it is at least
    [gap] slots after the last included index. *)
Fixpoint greedy (gap lastIncluded : Z) (idxs : list Z) : list Z :=
  match idxs with
  | [] => []
  | i :: rest =>
      if i - lastIncluded >=? gap
      then i :: greedy gap i rest
      else greedy gap lastIncluded rest
  end.

Definition spec_minSlots (slotPixelWidth minLabelGapPx : Z) : Z :=
  Qceiling (inject_Z minLabelGapPx / inject_Z slotPixelWidth).

Definition spec_finalMinSlots (slotPixelWidth minLabelGapPx : Z) : Z :=
  Z.max 2 (Qfloor (inject_Z (spec_minSlots slotPixelWidth minLabelGapPx)
                   * (55 # 100))).

Definition spec_selectLabelIndices
    (slotCount slotPixelWidth minLabelGapPx : Z) : list Z :=
  if slotCount =? 0 then []
  else if slotCount =? 1 then [0]
  else
    let included :=
      0 :: greedy (spec_minSlots slotPixelWidth minLabelGapPx) 0
             (seqZ 1 (slotCount - 2)) in
    let lastIncluded := lastOr0 included in
    if slotCount - 1 - lastIncluded
         >=? spec_finalMinSlots slotPixelWidth minLabelGapPx
    then included ++ [slotCount - 1]
    else included.

(** *** The collision property as the specification words it *)

(** [i], [j] are the first and the last slot. *)
Definition first_last_pair (slotCount i j : Z) : Prop :=
  (i = 0 ∧ j = slotCount - 1) ∨ (j = 0 ∧ i = slotCount - 1).

(** Index [0] is returned, and two returned indices closer than
    [minLabelGapPx] are the first/last pair. *)
Definition no_collision_but_first_last
    (slotCount slotPixelWidth minLabelGapPx : Z) : Prop :=
  0 ∈ selectLabelIndices slotCount ∧
  ∀ i j, i ∈ selectLabelIndices slotCount →
         j ∈ selectLabelIndices slotCount →
         i ≠ j →
         Z.abs (i - j) * slotPixelWidth < minLabelGapPx →
         first_last_pair slotCount i j.

(** [i], [j] are the final slot and the slot two before it. *)
Definition final_pair (slotCount i j : Z) : Prop :=
  (i = slotCount - 3 ∧ j = slotCount - 1) ∨
  (j = slotCount - 3 ∧ i = slotCount - 1).

(** Index [0] is returned, and two returned indices closer than
    [minLabelGapPx] are the final slot and the label before it, two slots
    apart. *)
Definition no_collision_but_final
    (slotCount slotPixelWidth minLabelGapPx : Z) : Prop :=
  0 ∈ selectLabelIndices slotCount ∧
  ∀ i j, i ∈ selectLabelIndices slotCount →
         j ∈ selectLabelIndices slotCount →
         i ≠ j →
         Z.abs (i - j) * slotPixelWidth < minLabelGapPx →
         final_pair slotCount i j.

End LabelPlacer.

(** ** DensityAggregator: the intensity of a daily bar *)

Module ContributionGrid.
Import JsString.

(** One day of the chart: its date and the number of sessions of the day. *)
Record DailyBar := {
  date : jsstring;
  sessionCount : nat;
}.

(** [let max = 0; for (const bar of dailyBars) if (bar.sessionCount > max)
    max = bar.sessionCount]. *)
Definition maxCount (dailyBars : list DailyBar) : nat :=
  fold_left
    (λ max bar, if (max <? sessionCount bar)%nat then sessionCount bar else max)
    dailyBars 0%nat.

Definition num (n : nat) : Q := inject_Z (Z.of_nat n).

(** [maxCount > 0 ? bar.sessionCount / maxCount : 0]. *)
Definition intensity (maxCount : nat) (bar : DailyBar) : Q :=
  if (0 <? maxCount)%nat then (num (sessionCount bar) / num maxCount)%Q
  else 0%Q.

(** The intensities of the bars of one chart, in order. *)
Definition intensities (dailyBars : list DailyBar) : list Q :=
  map (intensity (maxCount dailyBars)) dailyBars.

End ContributionGrid.

(** ** BrushMatcher *)

Module BrushMatchers.
Import JsString.

(** Modelled from the spec: [types/board.types] is not among the sources;
    [ActiveBrush] carries the [type] and [value] that [matchesBrush] reads.
    The type is kept a string so that the [default] branch is reachable. *)
Record ActiveBrush := {
  type : jsstring;
  value : jsstring;
}.

(** Modelled from the spec: the fields of a card that [matchesBrush] reads;
    [model] may be absent. *)
Record BrushableCard := {
  model : option jsstring;
  variant : jsstring;
  isError : bool;
  isCancelled : bool;
  isCommit : bool;
  editedFiles : list jsstring;
}.

(** [!!card.model && card.model.includes(v)]. *)
Definition matchesModel (card : BrushableCard) (v : jsstring) : bool :=
  match model card with
  | None => false
  | Some m => truthy m && includes m v
  end.

(** The inner [switch (brush.value)] of the status case. *)
Definition matchesStatus (card : BrushableCard) (v : jsstring) : bool :=
  if str_eqb v (js "error") then isError card
  else if str_eqb v (js "cancelled") then isCancelled card
  else if str_eqb v (js "commit") then isCommit card
  else false.

(** [card.editedFiles.some(f => f === v || f.endsWith(v))]. *)
Definition matchesFile (card : BrushableCard) (v : jsstring) : bool :=
  existsb (λ f, str_eqb f v || endsWith f v) (editedFiles card).

Definition matchesBrush (brush : option ActiveBrush) (card : BrushableCard)
  : bool :=
  match brush with
  | None => true
  | Some b =>
      if str_eqb (type b) (js "model") then matchesModel card (value b)
      else if str_eqb (type b) (js "tool") then str_eqb (variant card) (value b)
      else if str_eqb (type b) (js "status") then matchesStatus card (value b)
      else if str_eqb (type b) (js "file") then matchesFile card (value b)
      else false
  end.

(** A brush of the given type and value. *)
Definition brushOf (t v : string) : option ActiveBrush :=
  Some {| type := js t; value := js v |}.

(** A card that touched the given files and nothing else. *)
Definition cardWithFiles (files : list jsstring) : BrushableCard :=
  {| model := None; variant := js "neutral"; isError := false;
     isCancelled := false; isCommit := false;
     editedFiles := files |}.

(** *** The file case as the specification words it *)

(** [f] ends with [v] as a path suffix: [v] is the tail of [f] from the
    start of [f] or of one of its path components on, that is after a
    [/] or beginning with one. *)
Definition ends_with_path_suffix (f v : jsstring) : Prop :=
  ∃ pre, f = pre ++ v
         ∧ (pre = []
            ∨ (∃ pre', pre = pre' ++ [0x2F%N])
            ∨ (∃ v', v = 0x2F%N :: v')).

(** A [file] brush matches iff some touched file equals the value or ends
    with it as a path suffix. *)
Definition file_brush_matches_path_suffix (card : BrushableCard)
    (v : jsstring) : Prop :=
  matchesBrush (Some {| type := js "file"; value := v |}) card = true
  ↔ ∃ f, f ∈ editedFiles card ∧ (f = v ∨ ends_with_path_suffix f v).

End BrushMatchers.

(** ** InteractionRenderer: the expanded popover and the card *)

Module InteractionCard.
Import JsString.

(** Comparisons of pixel values. *)
Definition Qgtb (a b : Q) : bool := negb (Qle_bool a b).
Definition Qltb (a b : Q) : bool := negb (Qle_bool b a).

(** The sides of a bounding rectangle that the placement reads. *)
Record DOMRect := {
  left : Q;
  right : Q;
  top : Q;
}.

(** The [left], [top] and [maxHeight] styles of the popover. *)
Record Placement := {
  popLeft : Q;
  popTop : Q;
  popMaxHeight : Q;
}.

Definition cardWidth : Q := 480.
Definition gap : Q := 12.

(** The position computed by [ExpandedCard] from the trigger rectangle and
    [window.innerWidth], [window.innerHeight]. *)
Definition placePopover (triggerRect : DOMRect) (windowWidth windowHeight : Q)
  : Placement :=
  let left0 := (right triggerRect + gap)%Q in
  let top0 := top triggerRect in
  let left1 :=
    if Qgtb (left0 + cardWidth) (windowWidth - 20)
    then (left triggerRect - cardWidth - gap)%Q
    else left0 in
  let maxHeight := Qmin 600 (windowHeight - 40) in
  let top1 :=
    if Qgtb (top0 + maxHeight) (windowHeight - 20)
    then Qmax 20 (windowHeight - maxHeight - 20)
    else top0 in
  let top2 := if Qltb top1 20 then 20%Q else top1 in
  {| popLeft := left1; popTop := top2; popMaxHeight := maxHeight |}.

(** [if (!triggerRect) return null]. *)
Definition ExpandedCard (triggerRect : option DOMRect)
    (windowWidth windowHeight : Q) : option Placement :=
  match triggerRect with
  | None => None
  | Some r => Some (placePopover r windowWidth windowHeight)
  end.

(** The fields of a message that the card reads. [toolInput] stands for
    [JSON.stringify(toolUse.input)] and [toolInputPretty] for
    [JSON.stringify(toolUse.input, null, 2)]. *)
Record ToolUse := {
  toolName : jsstring;
  toolInput : jsstring;
  toolInputPretty : jsstring;
}.

Record Usage := {
  input_tokens : Z;
  output_tokens : Z;
}.

(** [role] stands for [message.role || message.type]. *)
Record ClaudeMessage := {
  role : jsstring;
  toolUse : option ToolUse;
  usage : option Usage;
}.

(** What the card renders at each zoom level. *)
Inductive Rendered :=
| Tick (height : Q) (bgColor : jsstring)
| SummaryCard (label preview : jsstring) (popover : option Placement)
| DetailCard (label body : jsstring) (popover : option Placement).

Section Card.

(** [utils/messageUtils] is not among the sources: the extracted text of a
    message, the error flag and the edited markdown file of a card are taken
    as given. *)
Variable extractClaudeMessageContent : ClaudeMessage → option jsstring.
Variable isErrorOf : ClaudeMessage → bool.
Variable editedMdFileOf : ClaudeMessage → jsstring → option jsstring.

(** [extractClaudeMessageContent(message) || ""]. *)
Definition contentOf (message : ClaudeMessage) : jsstring :=
  match extractClaudeMessageContent message with
  | Some c => if truthy c then c else []
  | None => []
  end.

(** [(usage?.input_tokens || 0) + (usage?.output_tokens || 0)]. *)
Definition totalTokens (message : ClaudeMessage) : Z :=
  match usage message with
  | Some u => input_tokens u + output_tokens u
  | None => 0
  end.

(** [Math.min(Math.max(totalTokens / 50, 4), 20)]. *)
Definition tickHeight (message : ClaudeMessage) : Q :=
  Qmin (Qmax (inject_Z (totalTokens message) / 50) 4) 20.

Definition tickColor (message : ClaudeMessage) (content : jsstring) : jsstring :=
  let c0 :=
    if str_eqb (role message) (js "user") then js "bg-primary/60"
    else if str_eqb (role message) (js "assistant") then js "bg-foreground/40"
    else if toolUse message is Some _ then js "bg-accent/60"
    else js "bg-muted" in
  let c1 :=
    if editedMdFileOf message content is Some _ then js "bg-emerald-500/80"
    else c0 in
  if isErrorOf message then js "bg-destructive/80" else c1.

(** The name of the tool, or the role. *)
Definition cardLabel (message : ClaudeMessage) : jsstring :=
  match toolUse message with
  | Some t => toolName t
  | None => role message
  end.

(** [content || (toolUse ? JSON.stringify(input, null, 2) : "No content")]. *)
Definition displayContent (message : ClaudeMessage) (content : jsstring)
  : jsstring :=
  if truthy content then content
  else match toolUse message with
       | Some t => toolInputPretty t
       | None => js "No content"
       end.

(** The card: [None] is the [null] of the guard for empty entries;
    [zoomLevel] [0] is the tick, [1] the summary card, anything else the
    detail card. The popover is present when the card is expanded and its
    rectangle has been measured. *)
Definition InteractionCard (message : ClaudeMessage) (zoomLevel : Z)
    (isExpanded : bool) (triggerRect : option DOMRect)
    (windowWidth windowHeight : Q) : option Rendered :=
  let content := contentOf message in
  let isTool := bool_decide (is_Some (toolUse message)) in
  if negb (truthy (trim content)) && negb isTool then None
  else
    let popover :=
      if isExpanded then ExpandedCard triggerRect windowWidth windowHeight
      else None in
    if zoomLevel =? 0 then
      Some (Tick (tickHeight message) (tickColor message content))
    else if zoomLevel =? 1 then
      Some (SummaryCard (cardLabel message)
              (match toolUse message with
               | Some t => toolInput t
               | None => content
               end) popover)
    else
      Some (DetailCard (cardLabel message) (displayContent message content)
              popover).

End Card.

End InteractionCard.

(** ** NavigationController *)

Module NavigationController.
Import JsString.

(** Modelled from the spec: the navigation slice of the store is not among
    the sources. A board view is the scroll offset, the zoom level and the
    set of pinned sessions. *)
Record BoardView := {
  scrollOffset : Q;
  zoomLevel : Z;
  pinnedSessions : gset jsstring;
}.

(** Modelled from the spec: the three states of the controller. *)
Inductive NavState := Idle | PendingJump | Returning.

(** Modelled from the spec: the controller owns the state, the deep-link
    target and the saved view; [board] is the view of the mounted board,
    absent while the detail view is shown; [highlighted] is the event the
    detail view has scrolled to and flashed. *)
Record Controller := {
  state : NavState;
  targetEventId : option jsstring;
  savedBoardView : option BoardView;
  board : option BoardView;
  highlighted : option jsstring;
}.

(** Modelled from the spec: the view of a freshly mounted board. *)
Definition defaultBoardView : BoardView :=
  {| scrollOffset := 0; zoomLevel := 1; pinnedSessions := ∅ |}.

(** Modelled from the spec: [Idle → PendingJump], activating a link on a
    card captures the current view of the board and leaves the board. *)
Definition activateLink (eventId : jsstring) (c : Controller)
  : option Controller :=
  match state c, board c with
  | Idle, Some view =>
      Some {| state := PendingJump; targetEventId := Some eventId;
              savedBoardView := Some view; board := None;
              highlighted := None |}
  | _, _ => None
  end.

(** Modelled from the spec: [PendingJump → Idle], the mounted detail view
    scrolls to the target and flashes it when the target is among the
    loaded events, does nothing otherwise, and clears the target. *)
Definition detailMounted (loaded : list jsstring) (c : Controller)
  : option Controller :=
  match state c, targetEventId c with
  | PendingJump, Some eventId =>
      Some {| state := Idle; targetEventId := None;
              savedBoardView := savedBoardView c; board := board c;
              highlighted :=
                if bool_decide (eventId ∈ loaded) then Some eventId
                else None |}
  | _, _ => None
  end.

(** Modelled from the spec: [Idle → Returning], the explicit back action
    from the detail view. *)
Definition goBack (c : Controller) : option Controller :=
  match state c, board c with
  | Idle, None =>
      Some {| state := Returning; targetEventId := targetEventId c;
              savedBoardView := savedBoardView c; board := None;
              highlighted := None |}
  | _, _ => None
  end.

(** Modelled from the spec: [Returning → Idle], the board is re-mounted,
    the saved view is applied to it and then cleared. *)
Definition boardRemounted (c : Controller) : option Controller :=
  match state c with
  | Returning =>
      Some {| state := Idle; targetEventId := targetEventId c;
              savedBoardView := None;
              board := Some (default defaultBoardView (savedBoardView c));
              highlighted := None |}
  | _ => None
  end.

(** Modelled from the spec: a jump to [eventId] from the board followed by
    the return to the board. *)
Definition jumpAndReturn (eventId : jsstring) (loaded : list jsstring)
    (c : Controller) : option Controller :=
  c1 ← activateLink eventId c;
  c2 ← detailMounted loaded c1;
  c3 ← goBack c2;
  boardRemounted c3.

(** The controller of a mounted board showing [view], nothing pending. *)
Definition onBoard (view : BoardView) : Controller :=
  {| state := Idle; targetEventId := None; savedBoardView := None;
     board := Some view; highlighted := None |}.

End NavigationController.

(** ** The daily-bar chart: bar heights, colours and positions *)

Module DailyBarChart.
Import JsString LabelPlacer ContributionGrid.

Definition CHART_HEIGHT : Z := 80.
Definition AXIS_HEIGHT : Z := 18.

(** [Math.round(x)]: the integer nearest to [x], halves upwards. *)
Definition round (x : Q) : Z := Qfloor (x + (1 # 2)).

(** The colour of a bar. *)
Definition getBarColor (intensity : Q) (isSelected : bool) : jsstring :=
  if isSelected then js "var(--chart-1)"
  else if Qeq_bool intensity 0 then js "var(--heatmap-empty)"
  else if Qle_bool intensity (33 # 100) then js "var(--heatmap-low)"
  else if Qle_bool intensity (66 # 100) then js "var(--heatmap-medium)"
  else js "var(--heatmap-high)".

(** [bar.sessionCount > 0
     ? Math.max(3, Math.round(intensity * (CHART_HEIGHT - 4))) : 2]. *)
Definition barPixelHeight (maxCount : nat) (bar : DailyBar) : Z :=
  if (0 <? sessionCount bar)%nat
  then Z.max 3 (round (intensity maxCount bar * inject_Z (CHART_HEIGHT - 4)))
  else 2.

(** The left edge [x] and the top edge [y] of the bar at [idx]. *)
Definition barX (idx : Z) : Z := idx * SLOT_WIDTH.
Definition barY (maxCount : nat) (bar : DailyBar) : Z :=
  CHART_HEIGHT - barPixelHeight maxCount bar.


(** [idx * SLOT_WIDTH + BAR_WIDTH / 2], the centre of the slot's bar. *)
Definition labelCx (idx : Z) : Q :=
  (inject_Z (idx * SLOT_WIDTH) + inject_Z BAR_WIDTH / 2)%Q.

(** [dailyBars[idx]] for an integer [idx]. *)
Definition barAt (dailyBars : list DailyBar) (idx : Z) : option DailyBar :=
  if idx <? 0 then None else dailyBars !! Z.to_nat idx.

(** The axis labels: for each selected index the centre and the date of
    its bar, or nothing ([null]) when there is no bar at the index. *)
Definition axisLabels (dailyBars : list DailyBar)
  : list (option (Q * jsstring)) :=
  map (λ idx, match barAt dailyBars idx with
              | None => None
              | Some bar => Some (labelCx idx, date bar)
              end)
      (selectLabelIndices (Z.of_nat (length dailyBars))).

(** What a click on a bar asks of the parent. *)
Inductive DateAction :=
| DateClick (date : jsstring)
| DateClear.

(** [handleBarClick]: nothing for a day without sessions, [onDateClear]
    for the selected day, [onDateClick] otherwise. *)
Definition handleBarClick (selectedDate : option jsstring) (bar : DailyBar)
  : option DateAction :=
  if (sessionCount bar =? 0)%nat then None
  else if bool_decide (selectedDate = Some (date bar)) then Some DateClear
  else Some (DateClick (date bar)).

End DailyBarChart.

(** ** The rendering category of a tool *)

Module ToolVariant.
Import JsString.

Section Variant.

(** [String.prototype.toLowerCase], taken as given. *)
Variable toLowerCase : jsstring → jsstring.

Definition getToolVariant (name : jsstring) : jsstring :=
  let lower := toLowerCase name in
  if includes lower (js "read") || includes lower (js "write")
     || includes lower (js "edit") || includes lower (js "lsp")
     || includes lower (js "notebook")
  then js "code"
  else if includes lower (js "glob") || includes lower (js "ls")
          || str_eqb lower (js "file")
  then js "file"
  else if includes lower (js "grep") || includes lower (js "search")
  then js "search"
  else if includes lower (js "task") || includes lower (js "todo")
          || includes lower (js "agent")
  then js "task"
  else if includes lower (js "bash") || includes lower (js "command")
          || includes lower (js "shell") || includes lower (js "kill")
  then js "terminal"
  else if includes lower (js "git")
  then js "git"
  else if includes lower (js "web") || includes lower (js "fetch")
          || includes lower (js "http")
  then js "web"
  else if includes lower (js "mcp") || includes lower (js "server")
  then js "mcp"
  else if includes lower (js "document") || includes lower (js "pdf")
  then js "document"
  else js "neutral".

End Variant.

(** The variants [getToolVariant] can return. *)
Definition variants : list jsstring :=
  [ js "code"; js "file"; js "search"; js "task"; js "terminal"; js "git";
    js "web"; js "mcp"; js "document"; js "neutral" ].

(** The words that decide the variant, in the order of the tests. *)
Definition keywords : list jsstring :=
  [ js "read"; js "write"; js "edit"; js "lsp"; js "notebook";
    js "glob"; js "ls"; js "grep"; js "search"; js "task"; js "todo";
    js "agent"; js "bash"; js "command"; js "shell"; js "kill"; js "git";
    js "web"; js "fetch"; js "http"; js "mcp"; js "server";
    js "document"; js "pdf" ].

(** Lower-casing of the letters [A] to [Z]; [toLowerCase] agrees with it
    on strings of ASCII code units. *)
Definition asciiLower (s : jsstring) : jsstring :=
  map (λ c, if (0x41 <=? c)%N && (c <=? 0x5A)%N then (c + 0x20)%N else c) s.

End ToolVariant.

(** ** The export selection of the store *)

Module ExportSlice.
Import JsString.

Record ExportSessionInfo := {
  sessionName : jsstring;
  projectName : jsstring;
  projectPath : jsstring;
  providerId : jsstring;
}.

(** A [Map] with string keys: its entries in insertion order. *)
Definition JsMap (V : Type) := list (jsstring * V).

Section JsMap.
Context {V : Type}.

(** [m.has(k)]. *)
Definition map_has (k : jsstring) (m : JsMap V) : bool :=
  existsb (λ e, str_eqb (fst e) k) m.

(** [m.get(k)]. *)
Fixpoint map_get (k : jsstring) (m : JsMap V) : option V :=
  match m with
  | [] => None
  | (k', v) :: rest => if str_eqb k' k then Some v else map_get k rest
  end.

(** [m.set(k, v)]: the value of an existing key is replaced in place, a
    new key is added at the end. *)
Fixpoint map_set (k : jsstring) (v : V) (m : JsMap V) : JsMap V :=
  match m with
  | [] => [(k, v)]
  | (k', v') :: rest =>
      if str_eqb k' k then (k, v) :: rest else (k', v') :: map_set k v rest
  end.

(** [m.delete(k)]. *)
Fixpoint map_delete (k : jsstring) (m : JsMap V) : JsMap V :=
  match m with
  | [] => []
  | (k', v') :: rest =>
      if str_eqb k' k then rest else (k', v') :: map_delete k rest
  end.

(** [m.size]. *)
Definition map_size (m : JsMap V) : nat := length m.

(** The keys of the entries, in order. *)
Definition map_keys (m : JsMap V) : list jsstring := fst <$> m.

End JsMap.

Record ExportSliceState := {
  selectedExportSessions : JsMap ExportSessionInfo;
  isExporting : bool;
  exportProgress : option (nat * nat);
}.

Definition initialExportState : ExportSliceState :=
  {| selectedExportSessions := []; isExporting := false;
     exportProgress := None |}.

(** [toggleExportSession]: a copy of the map without the path when it is
    selected, with the path and its info added otherwise. *)
Definition toggleExportSession (filePath : jsstring)
    (info : ExportSessionInfo) (state : ExportSliceState)
  : ExportSliceState :=
  let next := selectedExportSessions state in
  let next :=
    if map_has filePath next then map_delete filePath next
    else map_set filePath info next in
  {| selectedExportSessions := next; isExporting := isExporting state;
     exportProgress := exportProgress state |}.

Definition clearExportSelection (state : ExportSliceState)
  : ExportSliceState :=
  {| selectedExportSessions := []; isExporting := isExporting state;
     exportProgress := exportProgress state |}.

Definition setIsExporting (exporting : bool) (state : ExportSliceState)
  : ExportSliceState :=
  {| selectedExportSessions := selectedExportSessions state;
     isExporting := exporting; exportProgress := exportProgress state |}.

Definition setExportProgress (progress : option (nat * nat))
    (state : ExportSliceState) : ExportSliceState :=
  {| selectedExportSessions := selectedExportSessions state;
     isExporting := isExporting state; exportProgress := progress |}.



End ExportSlice.

(** ** The provider filter of the store *)

Module ProviderSlice.
Import JsString.

(** The initially active providers. *)
Definition initialActiveProviders : list jsstring :=
  [ js "claude"; js "codex"; js "opencode" ].

(** [toggleProvider] on the list of active providers: the provider is
    removed when it is active and added at the end otherwise, unless that
    would leave no provider active. *)
Definition toggleProvider (id : jsstring) (current : list jsstring)
  : list jsstring :=
  let next :=
    if existsb (λ p, str_eqb p id) current
    then filter (λ p, p ≠ id) current
    else current ++ [id] in
  if (0 <? length next)%nat then next else current.

End ProviderSlice.

(** ** The export of the selected sessions *)

Module ExportSessions.
Import JsString ExportSlice.

(** The code units replaced in a file name: slash, backslash, colon,
    star, question mark, double quote, the two angle brackets and the
    bar. *)
Definition isUnsafe (c : code_unit) : bool :=
  ((c =? 0x2F) || (c =? 0x5C) || (c =? 0x3A) || (c =? 0x2A) || (c =? 0x3F)
   || (c =? 0x22) || (c =? 0x3C) || (c =? 0x3E) || (c =? 0x7C))%N.

(** The replacement of one code unit by the underscore. *)
Definition replaceUnsafe (c : code_unit) : code_unit :=
  if isUnsafe c then 0x5F%N else c.

(** [name.replace(..., "_").slice(0, 80)]: every such code unit becomes an
    underscore, and the first 80 code units are kept. *)
Definition sanitizeFilename (name : jsstring) : jsstring :=
  take 80 (replaceUnsafe <$> name).

(** The code units of the class [[\\/]]. *)
Definition isSeparator (c : code_unit) : bool :=
  ((c =? 0x5C) || (c =? 0x2F))%N.

(** [s.split(/[\\/]/)]: the pieces between the separators, at least one. *)
Fixpoint splitPath (s : jsstring) : list jsstring :=
  match s with
  | [] => [[]]
  | c :: rest =>
      if isSeparator c then [] :: splitPath rest
      else match splitPath rest with
           | piece :: pieces => (c :: piece) :: pieces
           | [] => [[c]]
           end
  end.

(** The decimal digits of a natural number, as in a template literal. *)
Definition decimal (n : nat) : jsstring :=
  js (NilEmpty.string_of_uint (Nat.to_uint n)).

(** [index > 0 ? `_${index + 1}` : ""]. *)
Definition indexSuffix (index : nat) : jsstring :=
  if (0 <? index)%nat then js "_" ++ decimal (index + 1) else [].

Definition buildFilename (projectPath sessionName date : jsstring)
    (index : nat) : jsstring :=
  let projectSlug :=
    sanitizeFilename (default (js "project") (last (splitPath projectPath))) in
  let dateSlug := take 10 date in
  let nameSlug := sanitizeFilename sessionName in
  let suffix := indexSuffix index in
  projectSlug ++ js "_" ++ dateSlug ++ js "_" ++ nameSlug ++ suffix
  ++ js ".md".

(** [let filename = build(0); let collision = 1;
     while (usedFilenames.has(filename)) filename = build(collision++)],
    entered with the current [filename] and [collision]; [fuel] bounds the
    number of further iterations. *)
Fixpoint untilUnused (fuel : nat) (usedFilenames : gset jsstring)
    (build : nat → jsstring) (filename : jsstring) (collision : nat)
  : option jsstring :=
  if bool_decide (filename ∈ usedFilenames) then
    match fuel with
    | O => None
    | S fuel' =>
        untilUnused fuel' usedFilenames build (build collision) (S collision)
    end
  else Some filename.

(** What the loop of [exportSessions] has done so far: the two counters,
    the set of names taken, the calls of [write_text_file] (path and
    content, in order) and the calls of [setExportProgress]. *)
Record Run := {
  exported : nat;
  failed : nat;
  usedFilenames : gset jsstring;
  written : list (jsstring * jsstring);
  progress : list (nat * nat);
}.

Definition initialRun : Run :=
  {| exported := 0; failed := 0; usedFilenames := ∅; written := [];
     progress := [] |}.

(** What the loop keeps true of its state: every path written lies in the
    folder under a name taken, no path is written twice, and no session
    counts as exported without a write. *)
Definition run_ok (folder : jsstring) (run : Run) : Prop :=
  NoDup (fst <$> written run)
  ∧ (∀ path, path ∈ fst <$> written run →
       ∃ name, name ∈ usedFilenames run ∧ path = folder ++ js "/" ++ name)
  ∧ (exported run ≤ length (written run))%nat.

(** The toast shown at the end. *)
Inductive Toast :=
| ToastSuccess (count : nat)
| ToastError (exported failed : nat).

Section ExportRun.

(** The messages of a session and their time stamps. *)
Context {Message : Type}.
Variable timestamp : Message → option jsstring.

(** [invoke("load_session_messages", ...)] at iteration [i]: the messages,
    or nothing when the call is rejected. *)
Variable load_session_messages : nat → jsstring → option (list Message).

(** [invoke("write_text_file", ...)] at iteration [i]: whether the call
    succeeds. *)
Variable write_text_file : nat → jsstring → jsstring → bool.

(** [sessionToMarkdown(messages, info)]: the text, or nothing when it
    throws. *)
Variable sessionToMarkdown :
  list Message → ExportSessionInfo → option jsstring.

(** [new Date().toISOString()] at iteration [i]. *)
Variable now : nat → jsstring.

(** One iteration of the loop, for the entry at [i]; no result when the
    search for a free name runs out of fuel. A rejected call and a throw
    are caught and counted as a failure; an empty session is counted as a
    failure and skips the progress update. *)
Definition exportEntry (folder : jsstring) (total i : nat)
    (entry : jsstring * ExportSessionInfo) (run : Run) : option Run :=
  let '(filePath, info) := entry in
  match load_session_messages i filePath with
  | None =>
      Some {| exported := exported run; failed := S (failed run);
              usedFilenames := usedFilenames run; written := written run;
              progress := progress run ++ [(i + 1, total)%nat] |}
  | Some [] =>
      Some {| exported := exported run; failed := S (failed run);
              usedFilenames := usedFilenames run; written := written run;
              progress := progress run |}
  | Some ((first :: _) as messages) =>
      let firstDate := default (now i) (timestamp first) in
      let build := buildFilename (projectPath info) (sessionName info)
                     firstDate in
      match untilUnused (size (usedFilenames run)) (usedFilenames run)
              build (build 0%nat) 1 with
      | None => None
      | Some filename =>
          match sessionToMarkdown messages info with
          | None =>
              Some {| exported := exported run; failed := S (failed run);
                      usedFilenames := {[ filename ]} ∪ usedFilenames run;
                      written := written run;
                      progress := progress run ++ [(i + 1, total)%nat] |}
          | Some markdown =>
              let outputPath := folder ++ js "/" ++ filename in
              let ok := write_text_file i outputPath markdown in
              Some {| exported :=
                        if ok then S (exported run) else exported run;
                      failed := if ok then failed run else S (failed run);
                      usedFilenames := {[ filename ]} ∪ usedFilenames run;
                      written := written run ++ [(outputPath, markdown)];
                      progress := progress run ++ [(i + 1, total)%nat] |}
          end
      end
  end.

(** The loop over the entries from index [i] on. *)
Fixpoint exportLoop (folder : jsstring) (total i : nat)
    (entries : list (jsstring * ExportSessionInfo)) (run : Run)
  : option Run :=
  match entries with
  | [] => Some run
  | entry :: rest =>
      match exportEntry folder total i entry run with
      | None => None
      | Some run' => exportLoop folder total (S i) rest run'
      end
  end.

(** [exportSessions]: nothing is done without a folder ([null] or the
    empty string); otherwise the loop runs over the selection and the
    toast reports the counters. *)
Definition exportSessions (folder : option jsstring)
    (selected : JsMap ExportSessionInfo) : option (option (Run * Toast)) :=
  match folder with
  | None => Some None
  | Some folder =>
      if negb (truthy folder) then Some None
      else
        match exportLoop folder (length selected) 0 selected initialRun with
        | None => None
        | Some run =>
            Some (Some (run,
                        if (failed run =? 0)%nat
                        then ToastSuccess (exported run)
                        else ToastError (exported run) (failed run)))
        end
  end.

End ExportRun.

End ExportSessions.

(** * Properties *)

(** ** LabelPlacer *)

Module LabelPlacerFacts.
Import LabelPlacer.

Lemma minSlots_eq : minSlots = 3.
Proof. reflexivity. Qed.

Lemma finalMinSlots_eq : finalMinSlots = 2.
Proof. reflexivity. Qed.

Lemma lastOr0_snoc (l : list Z) (x : Z) : lastOr0 (l ++ [x]) = x.
Proof. unfold lastOr0. by rewrite last_snoc. Qed.

Lemma lastOr0_cons_cons (x y : Z) (l : list Z) :
  lastOr0 (x :: y :: l) = lastOr0 (y :: l).
Proof. reflexivity. Qed.

(** The loop pushes, after what it starts from, what the greedy walk
    includes. *)
Lemma fold_scan_step_greedy (idxs indices : list Z) :
  fold_left scan_step idxs indices
  = indices ++ greedy minSlots (lastOr0 indices) idxs.
Proof.
  revert indices. induction idxs as [|i rest IH]; intros indices; simpl.
  - by rewrite app_nil_r.
  - rewrite IH. unfold scan_step.
    destruct (i - lastOr0 indices >=? minSlots) eqn:Hi; [|done].
    by rewrite lastOr0_snoc, <- app_assoc.
Qed.

Lemma scan_greedy (count : Z) :
  scan count [0] = 0 :: greedy minSlots 0 (seqZ 1 (count - 2)).
Proof. unfold scan. by rewrite fold_scan_step_greedy. Qed.

(** Every included index is at least [gap] after the last included one. *)
Lemma greedy_after (gap : Z) (idxs : list Z) :
  0 ≤ gap →
  ∀ lastIncluded, Forall (λ x, gap ≤ x - lastIncluded)
                    (greedy gap lastIncluded idxs).
Proof.
  intros Hgap. induction idxs as [|i rest IH]; intros l; simpl.
  - constructor.
  - destruct (i - l >=? gap) eqn:Hi; [|apply IH].
    apply Z.geb_le in Hi. constructor; [lia|].
    eapply Forall_impl; [apply IH|]. simpl. intros; lia.
Qed.

(** The included indices are pairwise at least [gap] apart, in order. *)
Lemma greedy_sorted (gap : Z) (idxs : list Z) :
  0 ≤ gap →
  ∀ lastIncluded,
    StronglySorted (λ x y, gap ≤ y - x)
      (lastIncluded :: greedy gap lastIncluded idxs).
Proof.
  intros Hgap. induction idxs as [|i rest IH]; intros l; simpl.
  - repeat constructor.
  - destruct (i - l >=? gap) eqn:Hi; [|apply IH].
    apply Z.geb_le in Hi. constructor; [apply IH|].
    constructor; [lia|].
    eapply Forall_impl; [apply (greedy_after gap rest Hgap i)|].
    simpl. intros; lia.
Qed.

Lemma sorted_apart (gap : Z) (l : list Z) (i j : Z) :
  StronglySorted (λ x y, gap ≤ y - x) l →
  i ∈ l → j ∈ l → i ≠ j → gap ≤ Z.abs (i - j).
Proof.
  induction 1 as [|x l Hl IH Hx]; intros Hi Hj Hne.
  - by apply elem_of_nil in Hi.
  - rewrite Forall_forall in Hx.
    apply elem_of_cons in Hi as [->|Hi]; apply elem_of_cons in Hj as [->|Hj].
    + done.
    + specialize (Hx j Hj). lia.
    + specialize (Hx i Hi). lia.
    + by apply IH.
Qed.

(** In a list sorted with gaps, nothing lies after the last element. *)
Lemma sorted_le_last (gap : Z) (l : list Z) (x : Z) :
  0 ≤ gap →
  StronglySorted (λ x y, gap ≤ y - x) l →
  x ∈ l → x ≤ lastOr0 l.
Proof.
  intros Hgap Hs. revert x.
  induction Hs as [|y l Hl IH Hy]; intros x Hx.
  - by apply elem_of_nil in Hx.
  - destruct l as [|z l].
    + apply list_elem_of_singleton in Hx as ->. reflexivity.
    + rewrite lastOr0_cons_cons.
      apply elem_of_cons in Hx as [->|Hx]; [|by apply IH].
      rewrite Forall_forall in Hy.
      assert (z ≤ lastOr0 (z :: l)) by (apply IH; left).
      specialize (Hy z ltac:(left)). lia.
Qed.

(** What [selectLabelIndices] returns for two or more slots. *)
Lemma selectLabelIndices_unfold (count : Z) :
  count ≠ 0 → count ≠ 1 →
  let included := 0 :: greedy minSlots 0 (seqZ 1 (count - 2)) in
  selectLabelIndices count
  = if count - 1 - lastOr0 included >=? finalMinSlots
    then included ++ [count - 1] else included.
Proof.
  intros H0 H1. unfold selectLabelIndices.
  destruct (Z.eqb_spec count 0); [done|].
  destruct (Z.eqb_spec count 1); [done|].
  rewrite scan_greedy. simpl.
  destruct (count - 1 - _ >=? finalMinSlots) eqn:Hfin.
  - apply Z.geb_le in Hfin. rewrite finalMinSlots_eq in Hfin.
    destruct (Z.gtb_spec (count - 1)
                (lastOr0 (0 :: greedy minSlots 0 (seqZ 1 (count - 2)))));
      [done|lia].
  - by rewrite andb_false_r.
Qed.

(** C2. For every slot count, [selectLabelIndices] is the greedy
    left-to-right selection of the specification at a slot width of 17 and
    a minimum gap of 44: nothing for no slot, [0] alone for one slot,
    otherwise [0], then each index of [1..count-2] that is at least
    [ceil(44/17) = 3] after the last included one, then [count-1] iff it is
    at least [max(2, floor(3 * 0.55)) = 2] after the last included one. *)
Theorem selectLabelIndices_is_greedy (count : Z) :
  selectLabelIndices count = spec_selectLabelIndices count 17 44
  ∧ spec_minSlots 17 44 = 3
  ∧ spec_finalMinSlots 17 44 = 2
  ∧ selectLabelIndices 0 = []
  ∧ selectLabelIndices 1 = [0].
Proof.
  split; [|done].
  destruct (decide (count = 0)) as [->|H0]; [done|].
  destruct (decide (count = 1)) as [->|H1]; [done|].
  rewrite selectLabelIndices_unfold by done.
  unfold spec_selectLabelIndices.
  destruct (Z.eqb_spec count 0); [done|].
  destruct (Z.eqb_spec count 1); [done|].
  reflexivity.
Qed.

(** The scenario of 400 daily slots: every third index up to 396, and 399. *)
Example selectLabelIndices_400 :
  selectLabelIndices 400 = ((λ k, 3 * k) <$> seqZ 0 133) ++ [399].
Proof. vm_compute. reflexivity. Qed.

(** The final label is not always shown: it is dropped when it would be one
    slot after the last included label. *)
Example selectLabelIndices_5 : selectLabelIndices 5 = [0; 3].
Proof. reflexivity. Qed.

(** C1, as amended. For every slot count of at least 1, index [0] is
    returned, and two distinct returned indices whose distance times the
    slot width (17) is below the minimum gap (44) are the final index
    [count-1] and the label before it, exactly two slots apart. *)
Theorem selectLabelIndices_no_collision (count : Z) :
  1 ≤ count →
  no_collision_but_final count SLOT_WIDTH MIN_LABEL_GAP_PX.
Proof.
  intros Hc. unfold no_collision_but_final, final_pair.
  destruct (decide (count = 1)) as [->|H1].
  { split; [by left|]. intros i j Hi Hj Hne.
    apply list_elem_of_singleton in Hi, Hj. congruence. }
  rewrite selectLabelIndices_unfold by lia.
  set (included := 0 :: greedy minSlots 0 (seqZ 1 (count - 2))).
  assert (Hs : StronglySorted (λ x y, 3 ≤ y - x) included)
    by (apply (greedy_sorted 3); lia).
  assert (Hlast : ∀ x, x ∈ included → x ≤ lastOr0 included)
    by (intros x; apply (sorted_le_last 3); [lia|done]).
  assert (Hin : ∀ i j, i ∈ included → j ∈ included → i ≠ j →
                       Z.abs (i - j) * SLOT_WIDTH < MIN_LABEL_GAP_PX → False).
  { intros i j Hi Hj Hne Hgap.
    pose proof (sorted_apart 3 included i j Hs Hi Hj Hne).
    unfold SLOT_WIDTH, BAR_WIDTH, BAR_GAP, MIN_LABEL_GAP_PX in Hgap. lia. }
  destruct (count - 1 - lastOr0 included >=? finalMinSlots) eqn:Hfin.
  - apply Z.geb_le in Hfin. rewrite finalMinSlots_eq in Hfin.
    split; [apply elem_of_app; left; by left|].
    intros i j Hi Hj Hne Hgap.
    apply elem_of_app in Hi as [Hi|Hi]; apply elem_of_app in Hj as [Hj|Hj].
    + destruct (Hin i j Hi Hj Hne Hgap).
    + apply list_elem_of_singleton in Hj as ->. specialize (Hlast i Hi).
      unfold SLOT_WIDTH, BAR_WIDTH, BAR_GAP, MIN_LABEL_GAP_PX in Hgap. lia.
    + apply list_elem_of_singleton in Hi as ->. specialize (Hlast j Hj).
      unfold SLOT_WIDTH, BAR_WIDTH, BAR_GAP, MIN_LABEL_GAP_PX in Hgap. lia.
    + apply list_elem_of_singleton in Hi, Hj. congruence.
  - split; [by left|].
    intros i j Hi Hj Hne Hgap. destruct (Hin i j Hi Hj Hne Hgap).
Qed.

Lemma selectLabelIndices_no_collision_witness :
  1 ≤ 6 ∧ no_collision_but_final 6 SLOT_WIDTH MIN_LABEL_GAP_PX.
Proof.
  split; [lia | apply (selectLabelIndices_no_collision 6); lia].
Defined.

(** C1, as stated, fails for six slots: the labels are [0], [3] and [5],
    and [3] and [5] are 34 pixels apart without being the first and the
    last slot. *)
Lemma selectLabelIndices_first_last_fails :
  ¬ no_collision_but_first_last 6 SLOT_WIDTH MIN_LABEL_GAP_PX.
Proof.
  intros [_ H].
  assert (Hsel : selectLabelIndices 6 = [0; 3; 5]) by reflexivity.
  specialize (H 3 5). rewrite Hsel in H.
  destruct H as [[H _]|[H _]]; try discriminate.
  - apply list_elem_of_In; simpl; tauto.
  - apply list_elem_of_In; simpl; tauto.
  - reflexivity.
Qed.

(** *** The labels in closed form *)

(** Started within three slots after a multiple of 3, the walk includes
    exactly the multiples of 3. *)
Lemma greedy_multiples (n : nat) (k s : Z) :
  3 * k < s ≤ 3 * k + 3 →
  greedy 3 (3 * k) (seqZ s (Z.of_nat n))
  = filter (λ x, x mod 3 = 0) (seqZ s (Z.of_nat n)).
Proof.
  revert k s. induction n as [|n IH]; intros k s Hs; [done|].
  rewrite seqZ_cons by lia.
  replace (Z.pred (Z.of_nat (S n))) with (Z.of_nat n) by lia.
  simpl. destruct (Z.geb_spec (s - 3 * k) 3) as [Hge|Hlt].
  - assert (s = 3 * (k + 1)) as -> by lia.
    rewrite filter_cons_True
      by (rewrite Z.mul_comm; apply Z.mod_mul; lia).
    f_equal. apply IH. lia.
  - rewrite filter_cons_False
      by (intros Hmod; Z.div_mod_to_equations; lia).
    apply IH. lia.
Qed.

Lemma lastOr0_elem (x : Z) (l : list Z) : lastOr0 (x :: l) ∈ x :: l.
Proof.
  unfold lastOr0. destruct (last (x :: l)) as [y|] eqn:Hlast.
  - by apply last_Some_elem_of.
  - by apply last_None in Hlast.
Qed.

(** For two or more slots the labels are the multiples of 3 up to
    [count-2], and the final index unless it comes right after a
    multiple of 3. *)
Lemma selectLabelIndices_elem (count x : Z) :
  2 ≤ count →
  x ∈ selectLabelIndices count
  ↔ (0 ≤ x ≤ count - 2 ∧ x mod 3 = 0)
    ∨ (x = count - 1 ∧ count mod 3 ≠ 2).
Proof.
  intros Hc. rewrite selectLabelIndices_unfold by lia.
  set (included := 0 :: greedy minSlots 0 (seqZ 1 (count - 2))).
  assert (Hlast : ∀ y, y ∈ included → y ≤ lastOr0 included).
  { intros y. apply (sorted_le_last 3); [lia|].
    apply (greedy_sorted 3); lia. }
  assert (Hin : ∀ y, y ∈ included ↔ 0 ≤ y ≤ count - 2 ∧ y mod 3 = 0).
  { intros y. subst included. rewrite minSlots_eq.
    replace (count - 2) with (Z.of_nat (Z.to_nat (count - 2))) at 1 by lia.
    rewrite (greedy_multiples _ 0 1) by lia.
    rewrite elem_of_cons, list_elem_of_filter, elem_of_seqZ.
    split.
    - intros [->|[Hmod Hy]]; [split; [lia|done]|]. split; [lia|done].
    - intros [Hy Hmod]. destruct (decide (y = 0)); [by left|].
      right. split; [done|lia]. }
  assert (Hl : lastOr0 included = 3 * ((count - 2) / 3)).
  { pose proof (lastOr0_elem 0 (greedy minSlots 0 (seqZ 1 (count - 2))))
      as Hmem. fold included in Hmem. apply Hin in Hmem as [Hb Hmod].
    assert (Hm : 3 * ((count - 2) / 3) ∈ included).
    { apply Hin. split; [Z.div_mod_to_equations; lia|].
      rewrite Z.mul_comm. apply Z.mod_mul. lia. }
    apply Hlast in Hm. Z.div_mod_to_equations. lia. }
  rewrite Hl, finalMinSlots_eq.
  destruct (Z.geb_spec (count - 1 - 3 * ((count - 2) / 3)) 2) as [Hge|Hlt].
  - rewrite elem_of_app, list_elem_of_singleton, Hin.
    split; (intros [?|?]; [by left|right]).
    + split; [done|]. Z.div_mod_to_equations. lia.
    + tauto.
  - rewrite Hin. split; [by left|]. intros [?|[_ Hmod]]; [done|].
    Z.div_mod_to_equations. lia.
Qed.

(** *** Order and range of the labels *)

Lemma sorted_weaken (gap gap' : Z) (l : list Z) :
  gap' ≤ gap →
  StronglySorted (λ x y, gap ≤ y - x) l →
  StronglySorted (λ x y, gap' ≤ y - x) l.
Proof.
  intros Hle. induction 1 as [|x l Hl IH Hx]; constructor; [done|].
  eapply Forall_impl; [exact Hx|]. simpl. intros; lia.
Qed.

(** The labels come in increasing order, at least two slots apart. *)
Lemma labels_sorted (count : Z) :
  StronglySorted (λ x y, 2 ≤ y - x) (selectLabelIndices count).
Proof.
  destruct (decide (count = 0)) as [->|H0]; [constructor|].
  destruct (decide (count = 1)) as [->|H1]; [repeat constructor|].
  rewrite selectLabelIndices_unfold by done.
  set (included := 0 :: greedy minSlots 0 (seqZ 1 (count - 2))).
  assert (Hs : StronglySorted (λ x y, 3 ≤ y - x) included)
    by (apply (greedy_sorted 3); lia).
  destruct (count - 1 - lastOr0 included >=? finalMinSlots) eqn:Hfin.
  - apply Z.geb_le in Hfin. rewrite finalMinSlots_eq in Hfin.
    apply StronglySorted_app_2.
    + intros x y Hx ->%list_elem_of_singleton.
      pose proof (sorted_le_last 3 included x ltac:(lia) Hs Hx). lia.
    + by apply (sorted_weaken 3).
    + repeat constructor.
  - by apply (sorted_weaken 3).
Qed.

(** Every label is the index of a slot. *)
Lemma labels_in_range (count x : Z) :
  0 ≤ count → x ∈ selectLabelIndices count → 0 ≤ x < count.
Proof.
  intros Hc Hx.
  destruct (decide (count = 0)) as [->|H0]; [by apply elem_of_nil in Hx|].
  destruct (decide (count = 1)) as [->|H1].
  { apply list_elem_of_singleton in Hx as ->. lia. }
  apply selectLabelIndices_elem in Hx; lia.
Qed.

(** X1. For two or more slots, the labels are exactly the multiples of 3
    up to [count-2] together with the final index [count-1] unless
    [count mod 3 = 2]; so the final slot has a label iff
    [count mod 3 ≠ 2]. *)
Theorem labels_closed_form (count : Z) :
  2 ≤ count →
  (∀ x, x ∈ selectLabelIndices count
        ↔ (0 ≤ x ≤ count - 2 ∧ x mod 3 = 0)
          ∨ (x = count - 1 ∧ count mod 3 ≠ 2))
  ∧ (count - 1 ∈ selectLabelIndices count ↔ count mod 3 ≠ 2).
Proof.
  intros Hc. split; [intros x; by apply selectLabelIndices_elem|].
  rewrite selectLabelIndices_elem by done. split.
  - intros [[? _]|[_ ?]]; [lia|done].
  - intros ?. by right.
Qed.

Lemma labels_closed_form_witness :
  2 ≤ 5 ∧ ¬ (5 - 1 ∈ selectLabelIndices 5).
Proof.
  split; [lia|]. intros Hin.
  apply (proj2 (labels_closed_form 5 ltac:(lia))) in Hin. by apply Hin.
Defined.

(** X2. For every slot count, the labels are strictly increasing (so
    pairwise distinct), and for a non-negative count each of them is the
    index of a slot. *)
Theorem labels_increasing_in_range (count : Z) :
  StronglySorted Z.lt (selectLabelIndices count)
  ∧ NoDup (selectLabelIndices count)
  ∧ (0 ≤ count → Forall (λ i, 0 ≤ i < count) (selectLabelIndices count)).
Proof.
  pose proof (labels_sorted count) as Hs.
  assert (Hlt : StronglySorted Z.lt (selectLabelIndices count)).
  { induction Hs as [|x l Hl IH Hx]; constructor; [done|].
    eapply Forall_impl; [exact Hx|]. simpl. intros; lia. }
  split; [done|]. split.
  - clear Hs. induction Hlt as [|x l Hl IH Hx]; constructor; [|done].
    intros Hin. rewrite Forall_forall in Hx. specialize (Hx x Hin). lia.
  - intros Hc. apply Forall_forall. intros x Hx.
    by apply labels_in_range.
Qed.

Lemma labels_increasing_in_range_witness :
  0 ≤ 400 ∧ Forall (λ i, 0 ≤ i < 400) (selectLabelIndices 400).
Proof.
  split; [lia|].
  apply (proj2 (proj2 (labels_increasing_in_range 400))). lia.
Defined.

End LabelPlacerFacts.

(** ** DensityAggregator *)

Module ContributionGridFacts.
Import JsString ContributionGrid.

(** The running maximum of the loop of [maxCount], from any start. *)
Lemma maxCount_loop (dailyBars : list DailyBar) (start : nat) :
  let step := λ max bar,
    if (max <? sessionCount bar)%nat then sessionCount bar else max in
  let result := fold_left step dailyBars start in
  (start ≤ result)%nat
  ∧ (∀ b, b ∈ dailyBars → sessionCount b ≤ result)%nat
  ∧ (result = start ∨ ∃ b, b ∈ dailyBars ∧ sessionCount b = result).
Proof.
  simpl. revert start.
  induction dailyBars as [|bar rest IH]; intros start; simpl.
  - split; [lia|]. split; [|by left].
    intros b Hb. by apply elem_of_nil in Hb.
  - set (next := if (start <? sessionCount bar)%nat
                 then sessionCount bar else start).
    destruct (IH next) as (Hge & Hall & Hex).
    assert (start ≤ next ∧ sessionCount bar ≤ next)%nat as [Hs Hb].
    { subst next. destruct (Nat.ltb_spec start (sessionCount bar)); lia. }
    split; [lia|]. split.
    + intros b [->|Hin]%elem_of_cons; [lia|by apply Hall].
    + destruct Hex as [Heq|(b & Hin & Heq)].
      * subst next. destruct (Nat.ltb_spec start (sessionCount bar)).
        -- right. exists bar. split; [by left|congruence].
        -- by left.
      * right. exists b. split; [by right|done].
Qed.

Lemma maxCount_upper (dailyBars : list DailyBar) (b : DailyBar) :
  b ∈ dailyBars → (sessionCount b ≤ maxCount dailyBars)%nat.
Proof. intros Hb. by apply (maxCount_loop dailyBars 0). Qed.

Lemma maxCount_attained (dailyBars : list DailyBar) (bar : DailyBar) :
  bar ∈ dailyBars →
  ∃ b, b ∈ dailyBars ∧ sessionCount b = maxCount dailyBars.
Proof.
  intros Hbar.
  destruct (maxCount_loop dailyBars 0) as (_ & _ & [Hz|Hex]); [|done].
  exists bar. split; [done|].
  pose proof (maxCount_upper dailyBars bar Hbar) as Hle.
  unfold maxCount in *. lia.
Qed.

Lemma num_nonneg (n : nat) : (0 <= num n)%Q.
Proof.
  unfold num. change 0%Q with (inject_Z 0). rewrite <- Zle_Qle. lia.
Qed.

Lemma num_pos (n : nat) : (0 < n)%nat → (0 < num n)%Q.
Proof.
  intros Hn. unfold num. change 0%Q with (inject_Z 0).
  rewrite <- Zlt_Qlt. lia.
Qed.

Lemma num_le (m n : nat) : (m ≤ n)%nat → (num m <= num n)%Q.
Proof. intros Hmn. unfold num. rewrite <- Zle_Qle. lia. Qed.

(** The ratio of a count to a positive bound of it lies in [[0,1]]. *)
Lemma ratio_range (c m : nat) :
  (c ≤ m)%nat → (0 < m)%nat → (0 <= num c / num m <= 1)%Q.
Proof.
  intros Hcm Hm. pose proof (num_pos m Hm) as Hpos. split.
  - apply Qle_shift_div_l; [done|]. rewrite Qmult_0_l. apply num_nonneg.
  - apply Qle_shift_div_r; [done|]. rewrite Qmult_1_l. by apply num_le.
Qed.

(** C3. For every list of daily bars and every bar of it: the maximum
    count bounds every count and is the count of some bar; when it is
    positive the intensity of the bar is its count divided by the maximum;
    the intensity lies in [[0,1]]; it is 1 for a bar with the maximum count
    when that is positive, and 0 for a bar with count 0 (so for every bar
    when all counts are 0). *)
Theorem intensity_normalised (dailyBars : list DailyBar) (bar : DailyBar) :
  bar ∈ dailyBars →
  let max := maxCount dailyBars in
  let x := intensity max bar in
  (∀ b, b ∈ dailyBars → sessionCount b ≤ max)%nat
  ∧ (∃ b, b ∈ dailyBars ∧ sessionCount b = max)
  ∧ ((0 < max)%nat → x == num (sessionCount bar) / num max)%Q
  ∧ (0 <= x <= 1)%Q
  ∧ (sessionCount bar = max → (0 < max)%nat → x == 1)%Q
  ∧ (sessionCount bar = 0%nat → x == 0)%Q
  ∧ (max = 0%nat → x == 0)%Q.
Proof.
  intros Hbar max x.
  pose proof (maxCount_upper dailyBars bar Hbar) as Hle. fold max in Hle.
  split; [intros b Hb; by apply maxCount_upper|].
  split; [by apply (maxCount_attained dailyBars bar)|].
  subst x. unfold intensity.
  destruct (Nat.ltb_spec 0 max) as [Hpos|Hzero].
  - split; [reflexivity|]. split; [by apply ratio_range|].
    split; [|split].
    + intros -> _. apply Qmult_inv_r.
      intros Heq. pose proof (num_pos max Hpos) as Hlt.
      rewrite Heq in Hlt. by apply Qlt_irrefl in Hlt.
    + intros ->. unfold Qdiv. apply Qmult_0_l.
    + lia.
  - split; [lia|]. split; [split; [apply Qle_refl|discriminate]|].
    split; [lia|]. split; reflexivity.
Qed.

Lemma intensity_normalised_witness :
  {| date := js "2026-02-08"; sessionCount := 10 |}
    ∈ [ {| date := js "2026-02-08"; sessionCount := 10 |};
        {| date := js "2026-02-09"; sessionCount := 0 |} ]
  ∧ (0 <= intensity
            (maxCount [ {| date := js "2026-02-08"; sessionCount := 10 |};
                        {| date := js "2026-02-09"; sessionCount := 0 |} ])
            {| date := js "2026-02-08"; sessionCount := 10 |} <= 1)%Q.
Proof.
  assert (Hin : {| date := js "2026-02-08"; sessionCount := 10 |}
                ∈ [ {| date := js "2026-02-08"; sessionCount := 10 |};
                    {| date := js "2026-02-09"; sessionCount := 0 |} ])
    by (apply list_elem_of_In; simpl; tauto).
  split; [exact Hin|].
  exact (proj1 (proj2 (proj2 (proj2
           (intensity_normalised _ _ Hin))))).
Defined.

(** The scenario of 10 sessions on one day and none on the next. *)
Example intensities_two_days :
  Forall2 Qeq
    (intensities [ {| date := js "2026-02-08"; sessionCount := 10 |};
                   {| date := js "2026-02-09"; sessionCount := 0 |} ])
    [1%Q; 0%Q].
Proof. repeat constructor. Qed.

End ContributionGridFacts.

(** ** BrushMatcher *)

Module BrushMatchersFacts.
Import JsString BrushMatchers.

Lemma str_eqb_true (a b : jsstring) : str_eqb a b = true ↔ a = b.
Proof. unfold str_eqb. by rewrite bool_decide_eq_true. Qed.

Lemma str_eqb_false (a b : jsstring) : str_eqb a b = false ↔ a ≠ b.
Proof. unfold str_eqb. by rewrite bool_decide_eq_false. Qed.

Lemma str_eqb_ne (a b : jsstring) : a ≠ b → str_eqb a b = false.
Proof. apply str_eqb_false. Qed.

(** [endsWith] decides the suffix relation on code-unit sequences. *)
Lemma endsWith_suffix (s v : jsstring) :
  endsWith s v = true ↔ v `suffix_of` s.
Proof.
  unfold endsWith, substring_from. split.
  - destruct (Z.ltb_spec (Z.of_nat (length s) - Z.of_nat (length v)) 0);
      [done|].
    intros Heq%str_eqb_true.
    exists (take (Z.to_nat (Z.of_nat (length s) - Z.of_nat (length v))) s).
    rewrite <- Heq at 2. by rewrite take_drop.
  - intros [k ->]. rewrite length_app.
    destruct (Z.ltb_spec (Z.of_nat (length k + length v)
                          - Z.of_nat (length v)) 0); [lia|].
    apply str_eqb_true.
    replace (Z.to_nat (Z.of_nat (length k + length v) - Z.of_nat (length v)))
      with (length k) by lia.
    by rewrite drop_app_length.
Qed.

Lemma endsWith_empty (s : jsstring) : endsWith s [] = true.
Proof. apply endsWith_suffix. apply suffix_nil. Qed.

(** What the [file] case computes. *)
Lemma matchesFile_spec (card : BrushableCard) (v : jsstring) :
  matchesFile card v = true
  ↔ ∃ f, f ∈ editedFiles card ∧ (f = v ∨ v `suffix_of` f).
Proof.
  unfold matchesFile. rewrite existsb_exists. split.
  - intros (f & Hin & Hf). exists f. split; [by apply list_elem_of_In|].
    apply orb_true_iff in Hf as [Hf|Hf];
      [left; by apply str_eqb_true | right; by apply endsWith_suffix].
  - intros (f & Hin & Hf). exists f. split; [by apply list_elem_of_In|].
    apply orb_true_iff.
    destruct Hf as [Hf|Hf];
      [left; by apply str_eqb_true | right; by apply endsWith_suffix].
Qed.

Lemma matchesBrush_file (card : BrushableCard) (v : jsstring) :
  matchesBrush (Some {| type := js "file"; value := v |}) card
  = matchesFile card v.
Proof. reflexivity. Qed.

(** C4, as amended. For every card and every value [v], a [file] brush
    matches iff some touched file equals [v] or ends with [v] as a string
    of code units, whether or not [v] starts at a path component; the
    value [a.md] matches a card that touched [a.md], one that touched
    [/x/y/a.md] and also one that touched only [/x/data.md], and not one
    that touched only [a.mdx]. *)
Theorem matchesBrush_file_suffix (card : BrushableCard) (v : jsstring) :
  (matchesBrush (Some {| type := js "file"; value := v |}) card = true
   ↔ ∃ f, f ∈ editedFiles card ∧ (f = v ∨ v `suffix_of` f))
  ∧ matchesBrush (brushOf "file" "a.md") (cardWithFiles [js "a.md"]) = true
  ∧ matchesBrush (brushOf "file" "a.md") (cardWithFiles [js "/x/y/a.md"]) = true
  ∧ matchesBrush (brushOf "file" "a.md") (cardWithFiles [js "/x/data.md"]) = true
  ∧ matchesBrush (brushOf "file" "a.md") (cardWithFiles [js "a.mdx"]) = false.
Proof.
  split; [|done]. rewrite matchesBrush_file. apply matchesFile_spec.
Qed.

(** C4, as stated, fails for the value [a.md] and a card that touched only
    [/x/data.md]: the brush matches, though the file neither equals
    [a.md] nor ends with it as a path suffix (its last component is
    [data.md]). *)
Lemma matchesBrush_file_path_suffix_fails :
  ¬ file_brush_matches_path_suffix (cardWithFiles [js "/x/data.md"])
      (js "a.md").
Proof.
  intros [Hmatch _].
  destruct (Hmatch eq_refl) as (f & Hf & Hends).
  apply list_elem_of_singleton in Hf as ->.
  destruct Hends as [Heq|(pre & Hsplit & Hpre)]; [discriminate Heq|].
  change (js "/x/data.md") with (js "/x/dat" ++ js "a.md") in Hsplit.
  apply app_inj_2 in Hsplit as [<- _]; [|reflexivity].
  destruct Hpre as [Hnil|[(pre' & Hslash)|(v' & Hv)]].
  - discriminate Hnil.
  - change (js "/x/dat") with (js "/x/da" ++ js "t") in Hslash.
    apply app_inj_2 in Hslash as [_ Hlast]; [|reflexivity].
    discriminate Hlast.
  - discriminate Hv.
Qed.

(** C5. For every card, a [status] brush of value [error], [cancelled] or
    [commit] returns the card's flag of that name, a [status] brush of any
    other value returns false, and a brush whose type is none of [model],
    [tool], [status], [file] returns false. *)
Theorem matchesBrush_status_and_unknown (card : BrushableCard) :
  matchesBrush (brushOf "status" "error") card = isError card
  ∧ matchesBrush (brushOf "status" "cancelled") card = isCancelled card
  ∧ matchesBrush (brushOf "status" "commit") card = isCommit card
  ∧ (∀ v, v ≠ js "error" → v ≠ js "cancelled" → v ≠ js "commit" →
          matchesBrush (Some {| type := js "status"; value := v |}) card
          = false)
  ∧ (∀ t v, t ≠ js "model" → t ≠ js "tool" → t ≠ js "status" →
            t ≠ js "file" →
            matchesBrush (Some {| type := t; value := v |}) card = false).
Proof.
  repeat split; try reflexivity.
  - intros v He Hca Hco. simpl. unfold matchesStatus.
    by rewrite !str_eqb_ne.
  - intros t v Hm Ht Hs Hf. simpl. by rewrite !str_eqb_ne.
Qed.

Lemma matchesBrush_status_and_unknown_witness :
  matchesBrush (brushOf "status" "ok") (cardWithFiles [js "a.md"]) = false
  ∧ matchesBrush (brushOf "role" "user") (cardWithFiles [js "a.md"]) = false.
Proof.
  pose proof (matchesBrush_status_and_unknown (cardWithFiles [js "a.md"]))
    as (_ & _ & _ & Hstatus & Htype).
  split.
  - apply (Hstatus (js "ok")); discriminate.
  - apply (Htype (js "role") (js "user")); discriminate.
Defined.

(** C8. For every card, the absent brush matches. *)
Theorem matchesBrush_null (card : BrushableCard) :
  matchesBrush None card = true.
Proof. reflexivity. Qed.

(** C10. For every card, a [file] brush with the empty value matches iff
    the card touched at least one file. *)
Theorem matchesBrush_file_empty_value (card : BrushableCard) :
  matchesBrush (brushOf "file" "") card = true ↔ editedFiles card ≠ [].
Proof.
  unfold brushOf. change (js "") with (@nil code_unit).
  change (js "file") with (js "file"). rewrite matchesBrush_file.
  rewrite matchesFile_spec. split.
  - intros (f & Hin & _) Hnil. rewrite Hnil in Hin.
    by apply elem_of_nil in Hin.
  - destruct (editedFiles card) as [|f files]; [done|]. intros _.
    exists f. split; [by left|]. right. apply suffix_nil.
Qed.

(** *** The model brush and the narrowing of a file brush *)

Lemma startsWith_prefix (s v : jsstring) :
  startsWith s v = true ↔ v `prefix_of` s.
Proof.
  revert s. induction v as [|c v IH]; intros s; simpl.
  - split; [intros _; apply prefix_nil|intros _; by destruct s].
  - destruct s as [|d s]; simpl.
    + split; [done|]. intros [k Hk]. discriminate.
    + rewrite andb_true_iff, N.eqb_eq, IH. split.
      * intros [-> Hp]. by apply prefix_cons.
      * intros [k Hk]. injection Hk as -> ->. split; [done|].
        by exists k.
Qed.

(** [includes] decides the occurrence of [v] as a run of code units. *)
Lemma includes_infix (s v : jsstring) :
  includes s v = true ↔ ∃ pre post, s = pre ++ v ++ post.
Proof.
  induction s as [|d s IH]; cbn [includes].
  - rewrite orb_false_r, startsWith_prefix. split.
    + intros [k Hk]. exists [], k. done.
    + intros (pre & post & Heq). symmetry in Heq.
      apply app_eq_nil in Heq as [-> Heq].
      apply app_eq_nil in Heq as [-> ->]. apply prefix_nil.
  - rewrite orb_true_iff, startsWith_prefix, IH. split.
    + intros [[k Hk]|(pre & post & ->)].
      * exists [], k. done.
      * exists (d :: pre), post. done.
    + intros (pre & post & Heq). destruct pre as [|e pre].
      * left. exists post. done.
      * right. injection Heq as -> ->. by exists pre, post.
Qed.

(** X8. For every card and value [v], a [model] brush matches iff the card
    has a model that is not the empty string and contains [v] as a run of
    consecutive code units; a card without model, or with an empty one, is
    matched by no [model] brush, not even by the one with the empty
    value. *)
Theorem matchesBrush_model_substring (card : BrushableCard) (v : jsstring) :
  (matchesBrush (Some {| type := js "model"; value := v |}) card = true
   ↔ ∃ m, model card = Some m ∧ m ≠ []
          ∧ ∃ pre post, m = pre ++ v ++ post)
  ∧ (model card = None ∨ model card = Some [] →
     matchesBrush (Some {| type := js "model"; value := v |}) card = false).
Proof.
  change (matchesBrush (Some {| type := js "model"; value := v |}) card)
    with (matchesModel card v).
  unfold matchesModel. split.
  - destruct (model card) as [m|]; [|split; [done|by intros (? & ? & _)]].
    rewrite andb_true_iff, includes_infix. split.
    + intros [Ht Hi]. exists m. split; [done|]. split; [|done].
      by destruct m.
    + intros (m' & [= <-] & Hne & Hi). split; [by destruct m|done].
  - intros [->| ->]; reflexivity.
Qed.

Lemma matchesBrush_model_substring_witness :
  matchesBrush (brushOf "model" "")
    {| model := Some []; variant := js "neutral"; isError := false;
       isCancelled := false; isCommit := false; editedFiles := [] |}
  = false.
Proof.
  apply (proj2 (matchesBrush_model_substring _ [])). by right.
Defined.

(** X9. For every card, a [file] brush keeps matching when its value is
    shortened from the left: if the brush with value [v] matches and [w]
    is a suffix of [v], the brush with value [w] matches. *)
Theorem matchesBrush_file_shorter_value (card : BrushableCard)
    (v w : jsstring) :
  w `suffix_of` v →
  matchesBrush (Some {| type := js "file"; value := v |}) card = true →
  matchesBrush (Some {| type := js "file"; value := w |}) card = true.
Proof.
  rewrite !matchesBrush_file, !matchesFile_spec.
  intros Hwv (f & Hin & Hf). exists f. split; [done|]. right.
  destruct Hf as [->|Hf]; [done|]. by trans v.
Qed.

Lemma matchesBrush_file_shorter_value_witness :
  matchesBrush (Some {| type := js "file"; value := js "a.md" |})
    (cardWithFiles [js "/x/y/a.md"]) = true.
Proof.
  apply (matchesBrush_file_shorter_value _ (js "y/a.md")).
  - by exists (js "y/").
  - reflexivity.
Defined.

End BrushMatchersFacts.

(** ** InteractionRenderer *)

Module InteractionCardFacts.
Import JsString InteractionCard.

Lemma Qgtb_true (a b : Q) : Qgtb a b = true ↔ (b < a)%Q.
Proof.
  unfold Qgtb. rewrite negb_true_iff, <- not_true_iff_false, Qle_bool_iff.
  split; [apply Qnot_le_lt | apply Qlt_not_le].
Qed.

Lemma Qgtb_false (a b : Q) : Qgtb a b = false ↔ (a <= b)%Q.
Proof. unfold Qgtb. by rewrite negb_false_iff, Qle_bool_iff. Qed.

Lemma Qltb_true (a b : Q) : Qltb a b = true ↔ (a < b)%Q.
Proof.
  unfold Qltb. rewrite negb_true_iff, <- not_true_iff_false, Qle_bool_iff.
  split; [apply Qnot_le_lt | apply Qlt_not_le].
Qed.

Lemma Qltb_false (a b : Q) : Qltb a b = false ↔ (b <= a)%Q.
Proof. unfold Qltb. by rewrite negb_false_iff, Qle_bool_iff. Qed.

(** The height limit leaves the two margins of 20 free. *)
Lemma maxHeight_fits (windowHeight : Q) :
  (20 + Qmin 600 (windowHeight - 40) <= windowHeight - 20)%Q.
Proof.
  destruct (Q.min_spec 600 (windowHeight - 40)) as [[? ->]|[? ->]]; lra.
Qed.

(** C7. For every trigger rectangle and viewport size: the popover is put
    at [right + gap] when its width fits before the right margin and at
    [left - cardWidth - gap] otherwise; its top is never above the top
    margin of 20; its top plus [maxHeight] never passes the bottom margin;
    when the trigger's top would overflow the bottom margin the top is
    moved up to exactly [windowHeight - maxHeight - 20], and otherwise it is
    the trigger's top, raised to 20 if above the margin. *)
Theorem placePopover_placement (triggerRect : DOMRect)
    (windowWidth windowHeight : Q) :
  let p := placePopover triggerRect windowWidth windowHeight in
  let maxHeight := Qmin 600 (windowHeight - 40) in
  ExpandedCard (Some triggerRect) windowWidth windowHeight = Some p
  ∧ ((right triggerRect + gap + cardWidth <= windowWidth - 20)%Q →
     popLeft p = (right triggerRect + gap)%Q)
  ∧ ((windowWidth - 20 < right triggerRect + gap + cardWidth)%Q →
     popLeft p = (left triggerRect - cardWidth - gap)%Q)
  ∧ popMaxHeight p = maxHeight
  ∧ (20 <= popTop p)%Q
  ∧ (popTop p + maxHeight <= windowHeight - 20)%Q
  ∧ ((windowHeight - 20 < top triggerRect + maxHeight)%Q →
     (popTop p == windowHeight - maxHeight - 20)%Q)
  ∧ ((top triggerRect + maxHeight <= windowHeight - 20)%Q →
     (popTop p == Qmax 20 (top triggerRect))%Q).
Proof.
  intros p maxHeight. subst p. unfold placePopover. simpl. fold maxHeight.
  pose proof (maxHeight_fits windowHeight) as Hfit. fold maxHeight in Hfit.
  split; [reflexivity|]. split; [|split; [|split; [reflexivity|]]].
  - intros Hle.
    destruct (Qgtb _ _) eqn:Hflip; [|reflexivity].
    apply Qgtb_true in Hflip. lra.
  - intros Hlt.
    destruct (Qgtb (right triggerRect + gap + cardWidth) _) eqn:Hflip;
      [reflexivity|].
    apply Qgtb_false in Hflip. lra.
  - destruct (Qgtb (top triggerRect + maxHeight) _) eqn:Hover.
    + apply Qgtb_true in Hover.
      destruct (Q.max_spec 20 (windowHeight - maxHeight - 20))
        as [[Hm Heq]|[Hm Heq]].
      * destruct (Qltb _ 20) eqn:Hlow;
          [apply Qltb_true in Hlow | apply Qltb_false in Hlow];
          repeat split; intros; try rewrite Heq; try lra;
          destruct (Q.max_spec 20 (top triggerRect)) as [[? ->]|[? ->]]; lra.
      * destruct (Qltb _ 20) eqn:Hlow;
          [apply Qltb_true in Hlow | apply Qltb_false in Hlow];
          repeat split; intros; try rewrite Heq; try lra;
          destruct (Q.max_spec 20 (top triggerRect)) as [[? ->]|[? ->]]; lra.
    + apply Qgtb_false in Hover.
      destruct (Qltb _ 20) eqn:Hlow;
        [apply Qltb_true in Hlow | apply Qltb_false in Hlow];
        repeat split; intros; try lra;
        destruct (Q.max_spec 20 (top triggerRect)) as [[? ->]|[? ->]]; lra.
Qed.

Lemma placePopover_placement_witness :
  (100 + gap + cardWidth <= 1000 - 20)%Q
  ∧ popLeft (placePopover {| left := 50; right := 100; top := 30 |} 1000 800)
    = (100 + gap)%Q.
Proof.
  assert (Hfit : (100 + gap + cardWidth <= 1000 - 20)%Q)
    by (vm_compute; discriminate).
  split; [exact Hfit|].
  exact (proj1 (proj2
           (placePopover_placement
              {| left := 50; right := 100; top := 30 |} 1000 800)) Hfit).
Defined.

(** A trigger near the right edge and the bottom: the popover flips to the
    left of the trigger and is moved up to end at the bottom margin. *)
Example placePopover_flipped :
  placePopover {| left := 900; right := 980; top := 700 |} 1000 800
  = {| popLeft := 900 - 480 - 12; popTop := Qmax 20 (800 - Qmin 600 (800 - 40) - 20);
       popMaxHeight := Qmin 600 (800 - 40) |}.
Proof. reflexivity. Qed.

(** *** The guard for empty entries *)

Lemma trimStart_blank (s : jsstring) :
  Forall (λ c, isWhiteSpace c = true) s → trimStart s = [].
Proof. induction 1 as [|c s Hc _ IH]; simpl; [done|by rewrite Hc]. Qed.

Lemma trimStart_head (s : jsstring) :
  trimStart s = [] ∨ ∃ c t, trimStart s = c :: t ∧ isWhiteSpace c = false.
Proof.
  induction s as [|c s IH]; simpl; [by left|].
  destruct (isWhiteSpace c) eqn:Hc; [done|]. right. by exists c, s.
Qed.

Lemma trimStart_nil_blank (s : jsstring) :
  trimStart s = [] → Forall (λ c, isWhiteSpace c = true) s.
Proof.
  induction s as [|c s IH]; simpl; [constructor|].
  destruct (isWhiteSpace c) eqn:Hc; [|done]. intros Hs. by constructor; [|apply IH].
Qed.

(** [trim] leaves nothing exactly of the strings made of white space. *)
Lemma trim_nil_iff (s : jsstring) :
  trim s = [] ↔ Forall (λ c, isWhiteSpace c = true) s.
Proof.
  unfold trim, trimEnd. split.
  - intros Hnil. apply trimStart_nil_blank.
    destruct (trimStart_head s) as [Hs|(c & t & Hs & Hc)]; [done|].
    apply (f_equal (@rev code_unit)) in Hnil. rewrite rev_involutive in Hnil.
    simpl in Hnil. apply trimStart_nil_blank in Hnil.
    apply Forall_rev in Hnil. rewrite rev_involutive, Hs in Hnil.
    apply Forall_cons in Hnil as [Hwhite _]. congruence.
  - intros Hs. by rewrite (trimStart_blank s Hs).
Qed.

Section Card.
Variable extractClaudeMessageContent : ClaudeMessage → option jsstring.
Variable isErrorOf : ClaudeMessage → bool.
Variable editedMdFileOf : ClaudeMessage → jsstring → option jsstring.

Local Abbreviation card :=
  (InteractionCard extractClaudeMessageContent isErrorOf editedMdFileOf).
Local Abbreviation content := (contentOf extractClaudeMessageContent).

(** The card is missing exactly for the messages that are no tool use and
    whose content is white space. *)
Lemma InteractionCard_null_iff (message : ClaudeMessage) (zoomLevel : Z)
    (isExpanded : bool) (triggerRect : option DOMRect)
    (windowWidth windowHeight : Q) :
  card message zoomLevel isExpanded triggerRect windowWidth windowHeight
  = None
  ↔ toolUse message = None
    ∧ Forall (λ c, isWhiteSpace c = true) (content message).
Proof.
  unfold InteractionCard. rewrite <- trim_nil_iff.
  destruct (trim (content message)) as [|c t] eqn:Htrim; simpl.
  - destruct (toolUse message) as [tool|] eqn:Htool; simpl.
    + split; [|by intros [? _]].
      destruct (zoomLevel =? 0); [done|]. by destruct (zoomLevel =? 1).
    + done.
  - split; [|by intros [_ ?]].
    destruct (zoomLevel =? 0); [done|]. by destruct (zoomLevel =? 1).
Qed.

End Card.

(** C9. For every zoom level, the card of a message that has no tool use
    and whose extracted content is absent, empty or made of white space
    only is [null]. *)
Theorem InteractionCard_skips_empty
    (extractClaudeMessageContent : ClaudeMessage → option jsstring)
    (isErrorOf : ClaudeMessage → bool)
    (editedMdFileOf : ClaudeMessage → jsstring → option jsstring)
    (message : ClaudeMessage) (zoomLevel : Z) (isExpanded : bool)
    (triggerRect : option DOMRect) (windowWidth windowHeight : Q) :
  toolUse message = None →
  (∀ c, extractClaudeMessageContent message = Some c →
        Forall (λ u, isWhiteSpace u = true) c) →
  InteractionCard extractClaudeMessageContent isErrorOf editedMdFileOf
    message zoomLevel isExpanded triggerRect windowWidth windowHeight
  = None.
Proof.
  intros Htool Hblank. apply InteractionCard_null_iff. split; [done|].
  unfold contentOf.
  destruct (extractClaudeMessageContent message) as [c|]; [|constructor].
  destruct (truthy c); [by apply Hblank|constructor].
Qed.

Lemma InteractionCard_skips_empty_witness :
  InteractionCard (λ _, Some (js "  ")) (λ _, false) (λ _ _, None)
    {| role := js "assistant"; toolUse := None; usage := None |}
    0 false None 1280 800
  = None.
Proof.
  apply InteractionCard_skips_empty; [reflexivity|].
  intros c [= <-]. repeat constructor.
Defined.

(** A message with text is rendered at every zoom level. *)
Example InteractionCard_text_rendered (zoomLevel : Z) :
  is_Some
    (InteractionCard (λ _, Some (js "hi")) (λ _, false) (λ _ _, None)
       {| role := js "user"; toolUse := None; usage := None |}
       zoomLevel false None 1280 800).
Proof.
  unfold InteractionCard. simpl.
  destruct (zoomLevel =? 0); [by eexists|].
  destruct (zoomLevel =? 1); by eexists.
Qed.

(** *** The tick of the compact level *)

Lemma tickHeight_eq (message : ClaudeMessage) :
  tickHeight message
  = Qmin (Qmax (inject_Z (totalTokens message) * (1 # 50)) 4) 20.
Proof. reflexivity. Qed.

(** X10. For every message, the height of its tick lies between 4 and 20
    pixels: it is 4 up to 200 tokens in total (and without usage), one
    fiftieth of the total between 200 and 1000 tokens, and 20 from 1000
    tokens on. *)
Theorem tickHeight_bounds (message : ClaudeMessage) :
  (4 <= tickHeight message <= 20)%Q
  ∧ (usage message = None → (tickHeight message == 4)%Q)
  ∧ (totalTokens message ≤ 200 → (tickHeight message == 4)%Q)
  ∧ (200 ≤ totalTokens message ≤ 1000 →
     (tickHeight message == inject_Z (totalTokens message) / 50)%Q)
  ∧ (1000 ≤ totalTokens message → (tickHeight message == 20)%Q).
Proof.
  assert (Hcases : ∀ t : Z,
    let h := Qmin (Qmax (inject_Z t * (1 # 50)) 4) 20 in
    (4 <= h <= 20)%Q
    ∧ (t ≤ 200 → (h == 4)%Q)
    ∧ (200 ≤ t ≤ 1000 → (h == inject_Z t * (1 # 50))%Q)
    ∧ (1000 ≤ t → (h == 20)%Q)).
  { intros t h. subst h.
    assert (H200 : t ≤ 200 → (inject_Z t <= 200)%Q)
      by (intros ?; change 200%Q with (inject_Z 200); by rewrite <- Zle_Qle).
    assert (H200' : 200 ≤ t → (200 <= inject_Z t)%Q)
      by (intros ?; change 200%Q with (inject_Z 200); by rewrite <- Zle_Qle).
    assert (H1000 : t ≤ 1000 → (inject_Z t <= 1000)%Q)
      by (intros ?; change 1000%Q with (inject_Z 1000);
          by rewrite <- Zle_Qle).
    assert (H1000' : 1000 ≤ t → (1000 <= inject_Z t)%Q)
      by (intros ?; change 1000%Q with (inject_Z 1000);
          by rewrite <- Zle_Qle).
    destruct (Q.max_spec (inject_Z t * (1 # 50)) 4) as [[Hm Hmax]|[Hm Hmax]];
      destruct (Q.min_spec (Qmax (inject_Z t * (1 # 50)) 4) 20)
        as [[Hn Hmin]|[Hn Hmin]];
      rewrite Hmin; rewrite ?Hmax in *;
      repeat split; intros;
      repeat match goal with
             | H : _ ≤ _ ≤ _ |- _ => destruct H
             | H : ?t ≤ 200 |- _ => apply H200 in H
             | H : 200 ≤ ?t |- _ => apply H200' in H
             | H : ?t ≤ 1000 |- _ => apply H1000 in H
             | H : 1000 ≤ ?t |- _ => apply H1000' in H
             end; lra. }
  rewrite tickHeight_eq.
  destruct (Hcases (totalTokens message)) as (Hb & H4 & Hmid & H20).
  split; [done|]. split; [|split; [done|split; [done|done]]].
  intros Hnone. apply H4. unfold totalTokens. rewrite Hnone. lia.
Qed.

Lemma tickHeight_bounds_witness :
  (tickHeight {| role := js "assistant"; toolUse := None;
                 usage := Some {| input_tokens := 400;
                                  output_tokens := 100 |} |}
   == inject_Z
        (totalTokens {| role := js "assistant"; toolUse := None;
                        usage := Some {| input_tokens := 400;
                                         output_tokens := 100 |} |}) / 50)%Q.
Proof.
  apply (proj1 (proj2 (proj2 (proj2 (tickHeight_bounds _))))).
  unfold totalTokens. simpl. lia.
Defined.

(** *** The fallback text of the detail card *)

Section Fallback.
Variable extractClaudeMessageContent : ClaudeMessage → option jsstring.
Variable isErrorOf : ClaudeMessage → bool.
Variable editedMdFileOf : ClaudeMessage → jsstring → option jsstring.

(** X11. Whenever the card of a message is rendered, at any zoom level,
    either the extracted content is not empty and is the text displayed,
    or the message is a tool use: the third branch of the displayed text,
    the [No content] fallback, is never reached for a rendered card. *)
Theorem displayContent_never_falls_back (message : ClaudeMessage)
    (zoomLevel : Z) (isExpanded : bool) (triggerRect : option DOMRect)
    (windowWidth windowHeight : Q) :
  is_Some (InteractionCard extractClaudeMessageContent isErrorOf
             editedMdFileOf message zoomLevel isExpanded triggerRect
             windowWidth windowHeight) →
  let content := contentOf extractClaudeMessageContent message in
  (content ≠ [] ∧ displayContent message content = content)
  ∨ (content = [] ∧ is_Some (toolUse message)).
Proof.
  intros Hsome content.
  destruct content as [|c rest] eqn:Hcontent; [|by left].
  right. split; [done|].
  destruct (toolUse message) as [tool|] eqn:Htool; [by eexists|].
  exfalso. destruct Hsome as [r Hr].
  assert (Hnull : InteractionCard extractClaudeMessageContent isErrorOf
                    editedMdFileOf message zoomLevel isExpanded
                    triggerRect windowWidth windowHeight = None).
  { apply InteractionCard_null_iff. split; [done|].
    fold content. rewrite Hcontent. constructor. }
  congruence.
Qed.

End Fallback.

Lemma displayContent_never_falls_back_witness :
  (contentOf (λ _, Some (js "hi"))
     {| role := js "user"; toolUse := None; usage := None |} ≠ []
   ∧ displayContent {| role := js "user"; toolUse := None; usage := None |}
       (contentOf (λ _, Some (js "hi"))
          {| role := js "user"; toolUse := None; usage := None |})
     = contentOf (λ _, Some (js "hi"))
         {| role := js "user"; toolUse := None; usage := None |})
  ∨ (contentOf (λ _, Some (js "hi"))
       {| role := js "user"; toolUse := None; usage := None |} = []
     ∧ is_Some
         (toolUse {| role := js "user"; toolUse := None; usage := None |})).
Proof.
  apply (displayContent_never_falls_back (λ _, Some (js "hi"))
           (λ _, false) (λ _ _, None)
           {| role := js "user"; toolUse := None; usage := None |}
           2 false None 1280 800).
  by eexists.
Defined.

(** *** The horizontal side of the popover *)

(** X12. For every trigger rectangle and viewport size, the popover is
    either to the right of the trigger, starting [gap] after its right
    edge and ending before the right margin of 20, or to the left of it,
    ending exactly [gap] before its left edge; on the left there is no
    margin: the popover starts left of the viewport iff the trigger's left
    edge is below [cardWidth + gap]. *)
Theorem placePopover_side (triggerRect : DOMRect)
    (windowWidth windowHeight : Q) :
  let p := placePopover triggerRect windowWidth windowHeight in
  (popLeft p = (right triggerRect + gap)%Q
   ∧ (popLeft p + cardWidth <= windowWidth - 20)%Q)
  ∨ ((windowWidth - 20 < right triggerRect + gap + cardWidth)%Q
     ∧ (popLeft p + cardWidth + gap == left triggerRect)%Q
     ∧ ((popLeft p < 0)%Q ↔ (left triggerRect < cardWidth + gap)%Q)).
Proof.
  unfold placePopover. simpl.
  destruct (Qgtb (right triggerRect + gap + cardWidth) (windowWidth - 20))
    eqn:Hflip.
  - right. apply Qgtb_true in Hflip. split; [done|].
    unfold cardWidth, gap in *. split; [ring|]. split; intros; lra.
  - left. apply Qgtb_false in Hflip. done.
Qed.

End InteractionCardFacts.

(** ** NavigationController *)

Module NavigationControllerFacts.
Import JsString NavigationController.

(** Leaving the board captures its view and unmounts it. *)
Lemma activateLink_captures (view : BoardView) (eventId : jsstring) :
  activateLink eventId (onBoard view)
  = Some {| state := PendingJump; targetEventId := Some eventId;
            savedBoardView := Some view; board := None;
            highlighted := None |}.
Proof. reflexivity. Qed.

(** The detail view consumes the target and keeps the saved view; a target
    that is not loaded is not highlighted. *)
Lemma detailMounted_consumes (c : Controller) (eventId : jsstring)
    (loaded : list jsstring) :
  state c = PendingJump → targetEventId c = Some eventId →
  ∃ c', detailMounted loaded c = Some c'
        ∧ state c' = Idle ∧ targetEventId c' = None
        ∧ savedBoardView c' = savedBoardView c
        ∧ (eventId ∉ loaded → highlighted c' = None).
Proof.
  intros Hs Ht. unfold detailMounted. rewrite Hs, Ht.
  eexists. split; [reflexivity|]. simpl. repeat split.
  intros Hnot. by rewrite bool_decide_eq_false_2.
Qed.

(** C6. For every board view, target event and set of loaded events:
    capturing the view on the jump away, showing the detail view, going
    back and re-mounting the board ends in the idle state with a board
    view whose scroll offset, zoom level and pinned sessions are those of
    the view before the jump, and with no saved view left. *)
Theorem jumpAndReturn_restores (view : BoardView) (eventId : jsstring)
    (loaded : list jsstring) :
  ∃ c restored,
    jumpAndReturn eventId loaded (onBoard view) = Some c
    ∧ state c = Idle
    ∧ board c = Some restored
    ∧ scrollOffset restored = scrollOffset view
    ∧ zoomLevel restored = zoomLevel view
    ∧ pinnedSessions restored = pinnedSessions view
    ∧ savedBoardView c = None
    ∧ targetEventId c = None.
Proof.
  exists (onBoard view), view. repeat split.
Qed.

(** The restored view is the one left, not the default of a fresh board. *)
Example jumpAndReturn_not_default :
  (jumpAndReturn (js "e1") [js "e1"]
     (onBoard {| scrollOffset := 240; zoomLevel := 2;
                 pinnedSessions := {[ js "s1" ]} |})
   ≫= board)
  = Some {| scrollOffset := 240; zoomLevel := 2;
            pinnedSessions := {[ js "s1" ]} |}.
Proof. reflexivity. Qed.

End NavigationControllerFacts.

(** ** The daily-bar chart *)

Module DailyBarChartFacts.
Import JsString LabelPlacer ContributionGrid DailyBarChart.
Import LabelPlacerFacts ContributionGridFacts.

Lemma barAt_in_range (dailyBars : list DailyBar) (idx : Z) :
  0 ≤ idx < Z.of_nat (length dailyBars) → is_Some (barAt dailyBars idx).
Proof.
  intros Hidx. unfold barAt.
  destruct (Z.ltb_spec idx 0); [lia|].
  apply lookup_lt_is_Some. lia.
Qed.

(** X3. For every list of daily bars, every selected label index has a
    bar: no axis label is dropped by the [null] branch, and there are as
    many labels as selected indices. *)
Theorem axisLabels_all_present (dailyBars : list DailyBar) :
  Forall is_Some (axisLabels dailyBars)
  ∧ length (axisLabels dailyBars)
    = length (selectLabelIndices (Z.of_nat (length dailyBars))).
Proof.
  unfold axisLabels. split; [|by rewrite length_map].
  apply Forall_forall. intros o Ho.
  apply list_elem_of_In, in_map_iff in Ho as (idx & <- & Hidx).
  apply list_elem_of_In, labels_in_range in Hidx; [|lia].
  destruct (barAt_in_range dailyBars idx Hidx) as [bar ->]. by eexists.
Qed.




(** *** Bar heights *)

Lemma round_mono (x y : Q) : (x <= y)%Q → round x ≤ round y.
Proof. intros Hxy. unfold round. apply Qfloor_resp_le. lra. Qed.

Lemma round_Z (z : Z) : round (inject_Z z) = z.
Proof.
  unfold round. apply Z.le_antisymm.
  - assert (Hlt : Qfloor (inject_Z z + (1 # 2)) < z + 1); [|lia].
    rewrite Zlt_Qlt, inject_Z_plus.
    pose proof (Qfloor_le (inject_Z z + (1 # 2))) as Hfl.
    change (inject_Z 1) with 1%Q. lra.
  - rewrite <- (Qfloor_Z z) at 1. apply Qfloor_resp_le. lra.
Qed.

(** The intensity grows with the count. *)
Lemma intensity_mono (max : nat) (b1 b2 : DailyBar) :
  (sessionCount b1 ≤ sessionCount b2)%nat →
  (intensity max b1 <= intensity max b2)%Q.
Proof.
  intros Hle. unfold intensity.
  destruct (Nat.ltb_spec 0 max) as [Hpos|_]; [|apply Qle_refl].
  unfold Qdiv. apply Qmult_le_compat_r; [by apply num_le|].
  apply Qinv_le_0_compat, num_nonneg.
Qed.

Lemma intensity_range (max : nat) (bar : DailyBar) :
  (sessionCount bar ≤ max)%nat → (0 <= intensity max bar <= 1)%Q.
Proof.
  intros Hle. unfold intensity.
  destruct (Nat.ltb_spec 0 max) as [Hpos|_]; [by apply ratio_range|].
  split; [apply Qle_refl|discriminate].
Qed.

Lemma intensity_max (max : nat) (bar : DailyBar) :
  sessionCount bar = max → (0 < max)%nat → (intensity max bar == 1)%Q.
Proof.
  intros Hmax Hpos. unfold intensity. rewrite Hmax.
  destruct (Nat.ltb_spec 0 max) as [_|?]; [|lia].
  apply Qmult_inv_r. intros Heq. pose proof (num_pos _ Hpos) as Hlt.
  rewrite Heq in Hlt. by apply Qlt_irrefl in Hlt.
Qed.

Lemma intensity_pos (max : nat) (bar : DailyBar) :
  (0 < sessionCount bar ≤ max)%nat → (0 < intensity max bar)%Q.
Proof.
  intros [Hc Hle]. unfold intensity.
  destruct (Nat.ltb_spec 0 max) as [Hpos|?]; [|lia].
  apply Qlt_shift_div_l; [by apply num_pos|].
  rewrite Qmult_0_l. by apply num_pos.
Qed.

(** X5. For every list of daily bars and every bar of it: a day without
    sessions gets the 2-pixel stub, a day with sessions a bar of 3 to 76
    pixels, the busiest day exactly 76 pixels, and the top edge of every
    bar stays inside the chart area (between 4 and 78 of its 80
    pixels). *)
Theorem barPixelHeight_bounds (dailyBars : list DailyBar) (bar : DailyBar) :
  bar ∈ dailyBars →
  let max := maxCount dailyBars in
  (sessionCount bar = 0%nat → barPixelHeight max bar = 2)
  ∧ (sessionCount bar ≠ 0%nat → 3 ≤ barPixelHeight max bar ≤ 76)
  ∧ (sessionCount bar ≠ 0%nat → sessionCount bar = max →
     barPixelHeight max bar = 76)
  ∧ 4 ≤ barY max bar ≤ 78.
Proof.
  intros Hbar max.
  pose proof (maxCount_upper dailyBars bar Hbar) as Hle. fold max in Hle.
  pose proof (intensity_range max bar Hle) as [Hlo Hhi].
  assert (Hround : 0 ≤ round (intensity max bar * inject_Z (CHART_HEIGHT - 4))
                   ≤ 76).
  { change (inject_Z (CHART_HEIGHT - 4)) with (inject_Z 76). split.
    - rewrite <- (round_Z 0). apply round_mono.
      change (inject_Z 0) with 0%Q. change (inject_Z 76) with 76%Q. lra.
    - rewrite <- (round_Z 76) at 2. apply round_mono.
      change (inject_Z 76) with 76%Q. lra. }
  unfold barY, barPixelHeight.
  destruct (Nat.ltb_spec 0 (sessionCount bar)) as [Hpos|Hzero].
  - split; [lia|]. split; [lia|]. split; [|unfold CHART_HEIGHT in *; lia].
    intros _ Heq.
    assert (Hr : round (intensity max bar * inject_Z (CHART_HEIGHT - 4)) = 76).
    { pose proof (intensity_max max bar Heq ltac:(lia)) as H1.
      change (inject_Z (CHART_HEIGHT - 4)) with 76%Q.
      transitivity (round 76%Q); [|exact (round_Z 76)].
      apply Z.le_antisymm; apply round_mono; rewrite H1; lra. }
    rewrite Hr. reflexivity.
  - split; [done|]. split; [lia|]. split; [lia|]. unfold CHART_HEIGHT. lia.
Qed.

Lemma barPixelHeight_bounds_witness :
  {| date := js "2026-02-08"; sessionCount := 10 |}
    ∈ [ {| date := js "2026-02-08"; sessionCount := 10 |};
        {| date := js "2026-02-09"; sessionCount := 0 |} ]
  ∧ 4 ≤ barY (maxCount [ {| date := js "2026-02-08"; sessionCount := 10 |};
                         {| date := js "2026-02-09"; sessionCount := 0 |} ])
          {| date := js "2026-02-08"; sessionCount := 10 |} ≤ 78.
Proof.
  assert (Hin : {| date := js "2026-02-08"; sessionCount := 10 |}
                ∈ [ {| date := js "2026-02-08"; sessionCount := 10 |};
                    {| date := js "2026-02-09"; sessionCount := 0 |} ])
    by (apply list_elem_of_In; simpl; tauto).
  split; [exact Hin|].
  exact (proj2 (proj2 (proj2 (barPixelHeight_bounds _ _ Hin)))).
Defined.

(** X6. Within one chart a day with at least as many sessions never gets
    a shorter bar. *)
Theorem barPixelHeight_mono (max : nat) (b1 b2 : DailyBar) :
  (sessionCount b1 ≤ sessionCount b2)%nat →
  barPixelHeight max b1 ≤ barPixelHeight max b2.
Proof.
  intros Hle. unfold barPixelHeight.
  destruct (Nat.ltb_spec 0 (sessionCount b1)) as [H1|H1];
    destruct (Nat.ltb_spec 0 (sessionCount b2)) as [H2|H2]; try lia.
  apply Z.max_le_compat_l, round_mono.
  apply Qmult_le_compat_r; [by apply intensity_mono|].
  by vm_compute.
Qed.

Lemma barPixelHeight_mono_witness :
  barPixelHeight 10 {| date := js "a"; sessionCount := 3 |}
  ≤ barPixelHeight 10 {| date := js "b"; sessionCount := 7 |}.
Proof.
  apply barPixelHeight_mono. simpl. lia.
Defined.

(** *** Bar colours *)

(** X7. For every list of daily bars and every bar of it: the selected
    bar is drawn in the accent colour; a bar that is not selected is drawn
    in the empty colour iff its day has no session, and the busiest day
    (with at least one session) is drawn in the high colour. *)
Theorem getBarColor_of_bar (dailyBars : list DailyBar) (bar : DailyBar) :
  bar ∈ dailyBars →
  let x := intensity (maxCount dailyBars) bar in
  getBarColor x true = js "var(--chart-1)"
  ∧ (getBarColor x false = js "var(--heatmap-empty)"
     ↔ sessionCount bar = 0%nat)
  ∧ (sessionCount bar ≠ 0%nat → sessionCount bar = maxCount dailyBars →
     getBarColor x false = js "var(--heatmap-high)").
Proof.
  intros Hbar x. split; [reflexivity|].
  pose proof (maxCount_upper dailyBars bar Hbar) as Hle.
  unfold getBarColor. split; [split|].
  - destruct (Qeq_bool x 0) eqn:Hz.
    + intros _. apply Qeq_bool_iff in Hz.
      destruct (decide (sessionCount bar = 0%nat)) as [|Hne]; [done|].
      pose proof (intensity_pos (maxCount dailyBars) bar ltac:(lia)) as Hp.
      fold x in Hp. lra.
    + destruct (Qle_bool x (33 # 100)); [discriminate|].
      destruct (Qle_bool x (66 # 100)); discriminate.
  - intros Hz.
    assert (Hx : (x == 0)%Q).
    { subst x. unfold intensity. rewrite Hz.
      destruct (0 <? maxCount dailyBars)%nat; [|reflexivity].
      unfold Qdiv. apply Qmult_0_l. }
    apply Qeq_bool_iff in Hx. by rewrite Hx.
  - intros Hne Heq.
    pose proof (intensity_max _ bar Heq ltac:(lia)) as H1. fold x in H1.
    destruct (Qeq_bool x 0) eqn:Hz; [apply Qeq_bool_iff in Hz; lra|].
    destruct (Qle_bool x (33 # 100)) eqn:Hl;
      [apply Qle_bool_iff in Hl; lra|].
    destruct (Qle_bool x (66 # 100)) eqn:Hm;
      [apply Qle_bool_iff in Hm; lra|].
    reflexivity.
Qed.

Lemma getBarColor_of_bar_witness :
  {| date := js "2026-02-09"; sessionCount := 0 |}
    ∈ [ {| date := js "2026-02-08"; sessionCount := 10 |};
        {| date := js "2026-02-09"; sessionCount := 0 |} ]
  ∧ getBarColor
      (intensity
         (maxCount [ {| date := js "2026-02-08"; sessionCount := 10 |};
                     {| date := js "2026-02-09"; sessionCount := 0 |} ])
         {| date := js "2026-02-09"; sessionCount := 0 |}) false
    = js "var(--heatmap-empty)".
Proof.
  assert (Hin : {| date := js "2026-02-09"; sessionCount := 0 |}
                ∈ [ {| date := js "2026-02-08"; sessionCount := 10 |};
                    {| date := js "2026-02-09"; sessionCount := 0 |} ])
    by (apply list_elem_of_In; simpl; tauto).
  split; [exact Hin|].
  exact (proj2 (proj1 (proj2 (getBarColor_of_bar _ _ Hin))) eq_refl).
Defined.

End DailyBarChartFacts.

(** ** The rendering category of a tool *)

Module ToolVariantFacts.
Import JsString BrushMatchers ToolVariant.

Section Variant.
Variable toLowerCase : jsstring → jsstring.

Lemma getToolVariant_in_variants (name : jsstring) :
  getToolVariant toLowerCase name ∈ variants.
Proof.
  unfold getToolVariant, variants.
  repeat match goal with
         | |- context [if ?c then _ else _] => destruct c
         end;
    apply list_elem_of_In; simpl; tauto.
Qed.

(** X13. Whatever the name, [getToolVariant] returns one of the ten
    variants [code], [file], [search], [task], [terminal], [git], [web],
    [mcp], [document], [neutral], and these are pairwise distinct. *)
Theorem getToolVariant_range (name : jsstring) :
  getToolVariant toLowerCase name ∈ variants ∧ NoDup variants.
Proof.
  split; [apply getToolVariant_in_variants|].
  apply (bool_decide_unpack _). by vm_compute.
Qed.

(** X14. A name gets the [neutral] variant iff its lower-case form
    contains none of the twenty-four keywords and is not the word
    [file]. *)
Theorem getToolVariant_neutral_iff (name : jsstring) :
  getToolVariant toLowerCase name = js "neutral"
  ↔ (∀ k, k ∈ keywords → includes (toLowerCase name) k = false)
    ∧ toLowerCase name ≠ js "file".
Proof.
  unfold getToolVariant. set (lower := toLowerCase name). split.
  - intros Hn.
    repeat match type of Hn with
           | (if ?c then _ else _) = _ =>
               let H := fresh "Hc" in
               destruct c eqn:H; [discriminate Hn|]
           end.
    repeat match goal with
           | H : _ || _ = false |- _ => apply orb_false_iff in H as [? ?]
           end.
    split.
    + intros k Hk. unfold keywords in Hk.
      repeat (apply elem_of_cons in Hk as [->|Hk]; [assumption|]).
      by apply elem_of_nil in Hk.
    + match goal with
      | H : str_eqb lower _ = false |- _ =>
          by apply bool_decide_eq_false in H
      end.
  - intros [Hk Hfile].
    assert (Hf : str_eqb lower (js "file") = false)
      by by apply bool_decide_eq_false.
    rewrite Hf.
    repeat match goal with
           | |- context [includes lower ?k] =>
               rewrite (Hk k)
                 by (apply list_elem_of_In; unfold keywords;
                     repeat first [left; reflexivity | right])
           end.
    reflexivity.
Qed.

(** X15. A [tool] brush whose value is none of the ten variants matches no
    card whose variant comes from [getToolVariant]. *)
Theorem matchesBrush_tool_unknown_value (card : BrushableCard)
    (name v : jsstring) :
  v ∉ variants →
  variant card = getToolVariant toLowerCase name →
  matchesBrush (Some {| type := js "tool"; value := v |}) card = false.
Proof.
  intros Hv Hvar.
  change (matchesBrush (Some {| type := js "tool"; value := v |}) card)
    with (str_eqb (variant card) v).
  apply bool_decide_eq_false. intros <-. apply Hv. rewrite Hvar.
  apply getToolVariant_in_variants.
Qed.

End Variant.

Lemma matchesBrush_tool_unknown_value_witness :
  matchesBrush (brushOf "tool" "shell")
    {| model := None; variant := getToolVariant asciiLower (js "Bash");
       isError := false; isCancelled := false; isCommit := false;
       editedFiles := [] |}
  = false.
Proof.
  apply (matchesBrush_tool_unknown_value asciiLower _ (js "Bash")).
  - apply (bool_decide_unpack _). by vm_compute.
  - reflexivity.
Defined.

(** The order of the tests decides for names with several keywords. *)
Example getToolVariant_examples :
  getToolVariant asciiLower (js "Bash") = js "terminal"
  ∧ getToolVariant asciiLower (js "KillShell") = js "file"
  ∧ getToolVariant asciiLower (js "TodoWrite") = js "code"
  ∧ getToolVariant asciiLower (js "WebSearch") = js "search"
  ∧ getToolVariant asciiLower (js "WebFetch") = js "web".
Proof. by vm_compute. Qed.

End ToolVariantFacts.

(** ** The export selection *)

Module ExportSliceFacts.
Import JsString ExportSlice.

Section JsMap.
Context {V : Type}.
Implicit Types (m : JsMap V) (k q : jsstring) (v : V).

Lemma map_has_keys k m : map_has k m = true ↔ k ∈ map_keys m.
Proof.
  unfold map_has, map_keys. rewrite existsb_exists, list_elem_of_fmap.
  split.
  - intros ([k' v] & Hin & Heq). apply bool_decide_eq_true in Heq.
    exists (k', v). split; [by rewrite <- Heq|by apply list_elem_of_In].
  - intros ([k' v] & -> & Hin). exists (k', v).
    split; [by apply list_elem_of_In|by apply bool_decide_eq_true].
Qed.

Lemma map_has_false k m : map_has k m = false ↔ k ∉ map_keys m.
Proof. rewrite <- map_has_keys. by destruct (map_has k m). Qed.

Lemma map_get_absent k m : k ∉ map_keys m → map_get k m = None.
Proof.
  induction m as [|[k' v] m IH]; simpl; [done|].
  intros Hk. apply not_elem_of_cons in Hk as [Hne Hk].
  unfold str_eqb. rewrite (bool_decide_eq_false_2 (k' = k)) by done.
  by apply IH.
Qed.

Lemma map_set_absent k v m : k ∉ map_keys m → map_set k v m = m ++ [(k, v)].
Proof.
  induction m as [|[k' v'] m IH]; simpl; [done|].
  intros Hk. apply not_elem_of_cons in Hk as [Hne Hk].
  unfold str_eqb. rewrite (bool_decide_eq_false_2 (k' = k)) by done.
  by rewrite IH.
Qed.

Lemma map_get_app q m m' :
  map_get q (m ++ m')
  = match map_get q m with Some v => Some v | None => map_get q m' end.
Proof.
  induction m as [|[k' v] m IH]; simpl; [done|].
  by destruct (str_eqb k' q).
Qed.

Lemma map_delete_sub k m x :
  x ∈ map_keys (map_delete k m) → x ∈ map_keys m.
Proof.
  induction m as [|[k' v] m IH]; simpl; [done|].
  destruct (str_eqb k' k).
  - intros Hx. by right.
  - simpl. intros [->|Hx]%elem_of_cons; [by left|]. right. by apply IH.
Qed.

Lemma map_delete_absent k m : k ∉ map_keys m → map_delete k m = m.
Proof.
  induction m as [|[k' v] m IH]; simpl; [done|].
  intros Hk. apply not_elem_of_cons in Hk as [Hne Hk].
  unfold str_eqb. rewrite (bool_decide_eq_false_2 (k' = k)) by done.
  by rewrite IH.
Qed.

(** Deleting a key of a map with unique keys. *)
Lemma map_delete_keys k m :
  NoDup (map_keys m) →
  NoDup (map_keys (map_delete k m))
  ∧ (k ∉ map_keys (map_delete k m))
  ∧ (∀ q, q ≠ k → map_get q (map_delete k m) = map_get q m)
  ∧ (k ∈ map_keys m → S (length (map_delete k m)) = length m).
Proof.
  induction m as [|[k' v] m IH]; simpl.
  - intros _. repeat split; [constructor|by intros ?%elem_of_nil|].
    by intros ?%elem_of_nil.
  - intros [Hk' Hnd]%NoDup_cons. unfold str_eqb.
    destruct (decide (k' = k)) as [->|Hne].
    + rewrite (bool_decide_eq_true_2 (k = k)) by done.
      repeat split; try done.
      intros q Hq. by rewrite (bool_decide_eq_false_2 (k = q)) by congruence.
    + rewrite (bool_decide_eq_false_2 (k' = k)) by done.
      destruct (IH Hnd) as (IH1 & IH2 & IH3 & IH4). simpl.
      split; [|split; [|split]].
      * apply NoDup_cons. split; [|done].
        intros Hin. by apply Hk', (map_delete_sub k).
      * apply not_elem_of_cons. split; [congruence|done].
      * intros q Hq. unfold str_eqb.
        destruct (bool_decide (k' = q)); [done|by apply IH3].
      * intros [?|Hin]%elem_of_cons; [congruence|]. by rewrite IH4.
Qed.

End JsMap.

(** X16. For a selection with unique paths, [toggleExportSession]
    keeps the paths unique; afterwards the toggled path is absent if it was
    selected and holds the given info if it was not; every other path
    keeps its entry; and the size goes down, respectively up, by one. *)
Theorem toggleExportSession_spec (state : ExportSliceState)
    (filePath : jsstring) (info : ExportSessionInfo) :
  NoDup (map_keys (selectedExportSessions state)) →
  let before := selectedExportSessions state in
  let after :=
    selectedExportSessions (toggleExportSession filePath info state) in
  NoDup (map_keys after)
  ∧ map_get filePath after
    = (if map_has filePath before then None else Some info)
  ∧ (∀ q, q ≠ filePath → map_get q after = map_get q before)
  ∧ (if map_has filePath before
     then S (map_size after) = map_size before
     else map_size after = S (map_size before)).
Proof.
  intros Hnd before after. subst after. unfold toggleExportSession. simpl.
  fold before. destruct (map_has filePath before) eqn:Hhas.
  - apply map_has_keys in Hhas.
    destruct (map_delete_keys filePath before Hnd) as (H1 & H2 & H3 & H4).
    split; [done|]. split; [by apply map_get_absent|]. split; [done|].
    by apply H4.
  - apply map_has_false in Hhas. rewrite map_set_absent by done.
    split; [|split; [|split]].
    + unfold map_keys. rewrite fmap_app. apply NoDup_app.
      split; [done|]. split; [|apply NoDup_singleton].
      intros x Hx ->%list_elem_of_singleton. done.
    + rewrite map_get_app, map_get_absent by done. simpl. unfold str_eqb.
      by rewrite bool_decide_eq_true_2.
    + intros q Hq. rewrite map_get_app. destruct (map_get q before); [done|].
      simpl. unfold str_eqb. by rewrite bool_decide_eq_false_2.
    + unfold map_size. rewrite length_app. simpl. lia.
Qed.

Lemma toggleExportSession_spec_witness :
  NoDup (map_keys (selectedExportSessions initialExportState))
  ∧ map_get (js "/a.jsonl")
      (selectedExportSessions
         (toggleExportSession (js "/a.jsonl")
            {| sessionName := js "A"; projectName := js "p";
               projectPath := js "/p"; providerId := js "claude" |}
            initialExportState))
    = Some {| sessionName := js "A"; projectName := js "p";
              projectPath := js "/p"; providerId := js "claude" |}.
Proof.
  assert (Hnd : NoDup (map_keys (selectedExportSessions initialExportState)))
    by constructor.
  split; [exact Hnd|].
  exact (proj1 (proj2 (toggleExportSession_spec initialExportState
                         (js "/a.jsonl") _ Hnd))).
Defined.

Lemma map_delete_last {V} (k : jsstring) (v : V) (m : JsMap V) :
  k ∉ map_keys m → map_delete k (m ++ [(k, v)]) = m.
Proof.
  induction m as [|[k' v'] m IH]; simpl.
  - intros _. unfold str_eqb. by rewrite bool_decide_eq_true_2.
  - intros [Hne Hk]%not_elem_of_cons. unfold str_eqb.
    rewrite (bool_decide_eq_false_2 (k' = k)) by done. by rewrite IH.
Qed.

(** X17. For a selection with unique paths, toggling the same path twice
    restores the selection exactly, order included, when the path was not
    selected; when it was selected it stays selected but moves to the end
    of the selection and carries the info of the second toggle. *)
Theorem toggleExportSession_twice (state : ExportSliceState)
    (filePath : jsstring) (info1 info2 : ExportSessionInfo) :
  NoDup (map_keys (selectedExportSessions state)) →
  selectedExportSessions
    (toggleExportSession filePath info2
       (toggleExportSession filePath info1 state))
  = if map_has filePath (selectedExportSessions state)
    then map_delete filePath (selectedExportSessions state)
         ++ [(filePath, info2)]
    else selectedExportSessions state.
Proof.
  intros Hnd. unfold toggleExportSession. simpl.
  set (before := selectedExportSessions state) in *.
  destruct (map_has filePath before) eqn:Hhas.
  - destruct (map_delete_keys filePath before Hnd) as (_ & Habs & _).
    rewrite (proj2 (map_has_false filePath _) Habs).
    by apply map_set_absent.
  - apply map_has_false in Hhas. rewrite map_set_absent by done.
    assert (Hin : map_has filePath (before ++ [(filePath, info1)]) = true).
    { apply map_has_keys. unfold map_keys. rewrite fmap_app.
      apply elem_of_app. right. by left. }
    rewrite Hin. by apply map_delete_last.
Qed.

Lemma toggleExportSession_twice_witness :
  selectedExportSessions
    (toggleExportSession (js "/a.jsonl")
       {| sessionName := js "A"; projectName := js "p";
          projectPath := js "/p"; providerId := js "claude" |}
       (toggleExportSession (js "/a.jsonl")
          {| sessionName := js "A"; projectName := js "p";
             projectPath := js "/p"; providerId := js "claude" |}
          initialExportState))
  = [].
Proof.
  apply (toggleExportSession_twice initialExportState). constructor.
Defined.



End ExportSliceFacts.

(** ** The provider filter *)

Module ProviderSliceFacts.
Import JsString ProviderSlice.

Lemma includes_elem (id : jsstring) (current : list jsstring) :
  existsb (λ p, str_eqb p id) current = true ↔ id ∈ current.
Proof.
  rewrite existsb_exists. split.
  - intros (p & Hin & <-%bool_decide_eq_true). by apply list_elem_of_In.
  - intros Hin. exists id.
    split; [by apply list_elem_of_In|by apply bool_decide_eq_true].
Qed.

Lemma includes_not_elem (id : jsstring) (current : list jsstring) :
  existsb (λ p, str_eqb p id) current = false ↔ id ∉ current.
Proof. rewrite <- includes_elem. by destruct (existsb _ current). Qed.

(** X19. [toggleProvider] never returns the empty list, and when the
    toggled provider is the only active one the list is left as it is. *)
Theorem toggleProvider_keeps_one (id : jsstring) (current : list jsstring) :
  toggleProvider id current ≠ []
  ∧ (current ≠ [] → (∀ p, p ∈ current → p = id) →
     toggleProvider id current = current).
Proof.
  unfold toggleProvider. split.
  - destruct (existsb (λ p, str_eqb p id) current) eqn:Hin.
    + apply includes_elem in Hin.
      destruct (filter (λ p, p ≠ id) current) as [|p l] eqn:Hf; simpl.
      * intros ->. by apply elem_of_nil in Hin.
      * done.
    + rewrite length_app. simpl.
      destruct (Nat.ltb_spec 0 (length current + 1)) as [_|?]; [|lia].
      by destruct current.
  - intros Hne Hall.
    assert (Hin : existsb (λ p, str_eqb p id) current = true).
    { destruct current as [|p l]; [done|]. apply includes_elem.
      rewrite <- (Hall p) by (by left). by left. }
    rewrite Hin.
    assert (Hf : filter (λ p, p ≠ id) current = []).
    { apply elem_of_nil_inv. intros x [Hx Hx']%list_elem_of_filter.
      by apply Hx, Hall. }
    by rewrite Hf.
Qed.

Lemma toggleProvider_keeps_one_witness :
  toggleProvider (js "claude") [js "claude"] = [js "claude"].
Proof.
  apply (proj2 (toggleProvider_keeps_one (js "claude") [js "claude"])).
  - discriminate.
  - by intros p ->%list_elem_of_singleton.
Defined.

(** X20. After [toggleProvider], every other provider is active iff it
    was before, and the toggled provider is active iff it was not active
    before or was the only active one; a list without repetition stays
    without repetition. *)
Theorem toggleProvider_membership (id : jsstring)
    (current : list jsstring) :
  (∀ p, p ≠ id → (p ∈ toggleProvider id current ↔ p ∈ current))
  ∧ (id ∈ toggleProvider id current
     ↔ id ∉ current ∨ (∀ p, p ∈ current → p = id))
  ∧ (NoDup current → NoDup (toggleProvider id current)).
Proof.
  unfold toggleProvider.
  destruct (existsb (λ p, str_eqb p id) current) eqn:Hin.
  - apply includes_elem in Hin.
    destruct (filter (λ p, p ≠ id) current) as [|q l] eqn:Hf.
    + assert (Hall : ∀ p, p ∈ current → p = id).
      { intros p Hp. destruct (decide (p = id)) as [|Hne]; [done|].
        assert (Hp' : p ∈ filter (λ p, p ≠ id) current)
          by by apply list_elem_of_filter.
        rewrite Hf in Hp'. by apply elem_of_nil in Hp'. }
      simpl. split; [done|]. split; [|done]. split; [by right|done].
    + simpl. rewrite <- Hf. split; [|split].
      * intros p Hp. rewrite list_elem_of_filter. tauto.
      * rewrite list_elem_of_filter. split; [by intros [? _]|].
        intros [Hnot|Hall]; [done|].
        assert (Hq : q ∈ filter (λ p, p ≠ id) current)
          by (rewrite Hf; by left).
        apply list_elem_of_filter in Hq as [Hq Hq']. by apply Hall in Hq'.
      * by apply NoDup_filter.
  - apply includes_not_elem in Hin. rewrite length_app. simpl.
    destruct (Nat.ltb_spec 0 (length current + 1)) as [_|?]; [|lia].
    split; [|split].
    + intros p Hp. rewrite elem_of_app, list_elem_of_singleton. tauto.
    + rewrite elem_of_app, list_elem_of_singleton. split; [by left|].
      intros _. by right.
    + intros Hnd. apply NoDup_app. split; [done|].
      split; [|apply NoDup_singleton].
      by intros x Hx ->%list_elem_of_singleton.
Qed.

Lemma toggleProvider_membership_witness :
  NoDup initialActiveProviders
  ∧ NoDup (toggleProvider (js "codex") initialActiveProviders).
Proof.
  assert (Hnd : NoDup initialActiveProviders)
    by (apply (bool_decide_unpack _); by vm_compute).
  split; [exact Hnd|].
  exact (proj2 (proj2 (toggleProvider_membership (js "codex")
                         initialActiveProviders)) Hnd).
Defined.

(** X21. Toggling a provider that is not active twice restores the list of
    active providers exactly, provided the list was not empty. *)
Theorem toggleProvider_twice (id : jsstring) (current : list jsstring) :
  id ∉ current → current ≠ [] →
  toggleProvider id (toggleProvider id current) = current.
Proof.
  intros Hnot Hne. unfold toggleProvider at 2.
  rewrite (proj2 (includes_not_elem id current) Hnot).
  rewrite length_app. simpl.
  destruct (Nat.ltb_spec 0 (length current + 1)) as [_|?]; [|lia].
  unfold toggleProvider.
  assert (Hin : existsb (λ p, str_eqb p id) (current ++ [id]) = true).
  { apply includes_elem, elem_of_app. right. by left. }
  rewrite Hin, filter_app.
  assert (Hf : filter (λ p, p ≠ id) current = current).
  { clear -Hnot. induction current as [|p l IH]; [done|].
    apply not_elem_of_cons in Hnot as [Hp Hl].
    rewrite filter_cons_True by congruence. by rewrite IH. }
  rewrite Hf, filter_cons_False by (intros H; by apply H).
  rewrite filter_nil, app_nil_r.
  destruct current; [done|reflexivity].
Qed.

Lemma toggleProvider_twice_witness :
  toggleProvider (js "gemini")
    (toggleProvider (js "gemini") initialActiveProviders)
  = initialActiveProviders.
Proof.
  apply toggleProvider_twice.
  - apply (bool_decide_unpack _). by vm_compute.
  - discriminate.
Defined.

End ProviderSliceFacts.

(** ** The export of the selected sessions *)

Module ExportSessionsFacts.
Import JsString ExportSlice ExportSessions.

(** *** File names *)

Lemma replaceUnsafe_safe (c : code_unit) : isUnsafe (replaceUnsafe c) = false.
Proof.
  unfold replaceUnsafe. destruct (isUnsafe c) eqn:Hc; [reflexivity|done].
Qed.

Lemma replaceUnsafe_id (c : code_unit) :
  isUnsafe c = false → replaceUnsafe c = c.
Proof. unfold replaceUnsafe. by intros ->. Qed.

Lemma sanitizeFilename_safe (name : jsstring) :
  Forall (λ c, isUnsafe c = false) (sanitizeFilename name).
Proof.
  unfold sanitizeFilename. apply Forall_take, Forall_fmap, Forall_forall.
  intros c _. apply replaceUnsafe_safe.
Qed.

Lemma sanitizeFilename_of_safe (name : jsstring) :
  Forall (λ c, isUnsafe c = false) name →
  sanitizeFilename name = take 80 name.
Proof.
  intros Hsafe. unfold sanitizeFilename. f_equal.
  induction Hsafe as [|c l Hc _ IH]; [done|].
  rewrite fmap_cons, IH. f_equal. by apply replaceUnsafe_id.
Qed.

(** X22. For every name, [sanitizeFilename] returns a string of the
    length of the name, capped at 80 code units, that contains none of the
    nine replaced characters; it leaves a name of at most 80 code units
    without such characters unchanged, and applying it twice is applying
    it once. *)
Theorem sanitizeFilename_spec (name : jsstring) :
  length (sanitizeFilename name) = (length name `min` 80)%nat
  ∧ Forall (λ c, isUnsafe c = false) (sanitizeFilename name)
  ∧ (Forall (λ c, isUnsafe c = false) name → (length name ≤ 80)%nat →
     sanitizeFilename name = name)
  ∧ sanitizeFilename (sanitizeFilename name) = sanitizeFilename name.
Proof.
  split; [|split; [|split]].
  - unfold sanitizeFilename. rewrite length_take, length_fmap. lia.
  - apply sanitizeFilename_safe.
  - intros Hsafe Hlen. rewrite sanitizeFilename_of_safe by done.
    by apply take_ge.
  - rewrite (sanitizeFilename_of_safe (sanitizeFilename name))
      by apply sanitizeFilename_safe.
    apply take_ge. unfold sanitizeFilename. rewrite length_take. lia.
Qed.

Lemma sanitizeFilename_spec_witness :
  sanitizeFilename (js "Session A") = js "Session A".
Proof.
  apply (proj1 (proj2 (proj2 (sanitizeFilename_spec (js "Session A"))))).
  - apply (bool_decide_unpack _). by vm_compute.
  - simpl. lia.
Defined.

(** *** Decimal digits *)

Lemma js_inj (s t : string) : js s = js t → s = t.
Proof.
  unfold js. intros Heq.
  rewrite <- (string_of_list_ascii_of_string s),
          <- (string_of_list_ascii_of_string t).
  f_equal. revert Heq.
  generalize (list_ascii_of_string s) (list_ascii_of_string t).
  intros l. induction l as [|a l IH]; intros [|b k]; simpl; try done.
  intros [= Hab Hlk]. f_equal; [|by apply IH].
  by rewrite <- (ascii_N_embedding a), <- (ascii_N_embedding b), Hab.
Qed.

Lemma decimal_inj (m n : nat) : decimal m = decimal n → m = n.
Proof.
  unfold decimal. intros Heq%js_inj.
  apply DecimalNat.Unsigned.to_uint_inj.
  assert (Hsome : Some (Nat.to_uint m) = Some (Nat.to_uint n))
    by (rewrite <- !NilEmpty.usu; by rewrite Heq).
  by injection Hsome.
Qed.

Lemma decimal_digits (n : nat) :
  Forall (λ c, (0x30 ≤ c ≤ 0x39)%N) (decimal n).
Proof.
  unfold decimal. generalize (Nat.to_uint n). intros d.
  induction d; simpl; constructor; try done; vm_compute; split; discriminate.
Qed.

Lemma decimal_safe (n : nat) : Forall (λ c, isUnsafe c = false) (decimal n).
Proof.
  eapply Forall_impl; [apply decimal_digits|]. simpl. intros c [Hlo Hhi].
  unfold isUnsafe.
  repeat match goal with
         | |- context [(c =? ?k)%N] =>
             destruct (N.eqb_spec c k); [lia|]
         end.
  reflexivity.
Qed.

(** *** The last component of the project path *)

Lemma splitPath_last (s : jsstring) :
  ∃ pieces piece pre,
    splitPath s = pieces ++ [piece]
    ∧ s = pre ++ piece
    ∧ Forall (λ c, isSeparator c = false) piece
    ∧ (pieces = [] → pre = [])
    ∧ (pieces ≠ [] → ∃ pre' c, pre = pre' ++ [c] ∧ isSeparator c = true).
Proof.
  induction s as [|c rest IH].
  - exists [], [], []. repeat split; done.
  - destruct IH as (pieces & piece & pre & Hsplit & Hrest & Hpiece & Hnil
                    & Hcons).
    simpl. destruct (isSeparator c) eqn:Hc.
    + exists ([] :: pieces), piece, (c :: pre).
      split; [by rewrite Hsplit|]. split; [by rewrite Hrest|].
      split; [done|]. split; [done|]. intros _.
      destruct pieces as [|q qs].
      * rewrite Hnil by done. by exists [], c.
      * destruct Hcons as (pre' & d & -> & Hd); [done|].
        by exists (c :: pre'), d.
    + rewrite Hsplit. destruct pieces as [|q qs]; simpl.
      * exists [], (c :: piece), []. rewrite Hrest, Hnil by done.
        repeat split; try done. by constructor.
      * exists ((c :: q) :: qs), piece, (c :: pre).
        split; [done|]. split; [by rewrite Hrest|]. split; [done|].
        split; [done|]. intros _.
        destruct Hcons as (pre' & d & -> & Hd); [done|].
        by exists (c :: pre'), d.
Qed.

Lemma not_elem_of_safe (c : code_unit) (l : jsstring) :
  isUnsafe c = true → Forall (λ c, isUnsafe c = false) l → c ∉ l.
Proof.
  intros Hc Hl Hin. rewrite Forall_forall in Hl.
  specialize (Hl c Hin). congruence.
Qed.

Lemma indexSuffix_safe (index : nat) :
  Forall (λ c, isUnsafe c = false) (indexSuffix index).
Proof.
  unfold indexSuffix. destruct (0 <? index)%nat; [|constructor].
  apply Forall_app. split; [by repeat constructor|apply decimal_safe].
Qed.

(** X23. For every project path, session name, date and index, the file
    name built contains one of the nine replaced characters (among them
    the slash and the backslash) iff that character occurs in the first
    ten code units of the date: the date is the only part of the name
    that is not sanitized. *)
Theorem buildFilename_unsafe_iff (projectPath sessionName date : jsstring)
    (index : nat) (c : code_unit) :
  isUnsafe c = true →
  (c ∈ buildFilename projectPath sessionName date index ↔ c ∈ take 10 date).
Proof.
  intros Hc. unfold buildFilename. rewrite !elem_of_app.
  pose proof (not_elem_of_safe c _ Hc (sanitizeFilename_safe sessionName)).
  pose proof (not_elem_of_safe c _ Hc
                (sanitizeFilename_safe
                   (default (js "project") (last (splitPath projectPath))))).
  pose proof (not_elem_of_safe c _ Hc (indexSuffix_safe index)).
  assert (c ∉ js "_") by (apply (not_elem_of_safe c); by repeat constructor).
  assert (c ∉ js ".md") by (apply (not_elem_of_safe c); by repeat constructor).
  tauto.
Qed.

Lemma buildFilename_unsafe_iff_witness :
  0x2F%N ∈ buildFilename (js "/proj") (js "Session A") (js "../../etc/x") 0.
Proof.
  apply (buildFilename_unsafe_iff _ _ _ _ 0x2F%N); [reflexivity|].
  apply list_elem_of_In. vm_compute. tauto.
Defined.

(** X24. For every project path, the project part of the file name is the
    sanitized last component of the path: the path is some prefix followed
    by that component, the component contains no separator, and the prefix
    is empty or ends with a separator; the [project] default is never
    used. *)
Theorem buildFilename_project_component (projectPath sessionName date
    : jsstring) (index : nat) :
  ∃ pre component,
    projectPath = pre ++ component
    ∧ Forall (λ c, isSeparator c = false) component
    ∧ (pre = [] ∨ ∃ pre' c, pre = pre' ++ [c] ∧ isSeparator c = true)
    ∧ last (splitPath projectPath) = Some component
    ∧ buildFilename projectPath sessionName date index
      = sanitizeFilename component ++ js "_" ++ take 10 date ++ js "_"
        ++ sanitizeFilename sessionName ++ indexSuffix index ++ js ".md".
Proof.
  destruct (splitPath_last projectPath)
    as (pieces & piece & pre & Hsplit & Hpath & Hpiece & Hnil & Hcons).
  exists pre, piece. split; [done|]. split; [done|].
  assert (Hlast : last (splitPath projectPath) = Some piece)
    by (rewrite Hsplit; apply last_snoc).
  split; [|split; [done|]].
  - destruct pieces; [left; by apply Hnil|right; by apply Hcons].
  - unfold buildFilename. by rewrite Hlast.
Qed.

(** *** The search for a free file name *)

Lemma indexSuffix_inj (i j : nat) :
  indexSuffix i ++ js ".md" = indexSuffix j ++ js ".md" → i = j.
Proof.
  intros Heq%app_inv_tail. unfold indexSuffix in Heq.
  destruct (Nat.ltb_spec 0 i) as [Hi|Hi];
    destruct (Nat.ltb_spec 0 j) as [Hj|Hj]; try discriminate Heq; [|lia].
  apply app_inv_head, decimal_inj in Heq. lia.
Qed.

Lemma buildFilename_inj (projectPath sessionName date : jsstring)
    (i j : nat) :
  buildFilename projectPath sessionName date i
  = buildFilename projectPath sessionName date j → i = j.
Proof.
  unfold buildFilename. intros Heq.
  repeat apply app_inv_head in Heq. by apply indexSuffix_inj.
Qed.

(** As many candidates as are all taken fit into the set of taken names. *)
Lemma taken_candidates (used : gset jsstring) (build : nat → jsstring)
    (n : nat) :
  (∀ i j, build i = build j → i = j) →
  (∀ j, (j < n)%nat → build j ∈ used) → (n ≤ size used)%nat.
Proof.
  intros Hinj Htaken.
  assert (Hnd : NoDup (build <$> seq 0 n)).
  { apply NoDup_fmap_2_strong; [|apply NoDup_seq].
    intros i j _ _. apply Hinj. }
  trans (size (list_to_set (build <$> seq 0 n) : gset jsstring)).
  - rewrite size_list_to_set by done. by rewrite length_fmap, length_seq.
  - apply subseteq_size, elem_of_subseteq. intros x Hx.
    apply elem_of_list_to_set, list_elem_of_fmap in Hx as (j & -> & Hj).
    apply Htaken. apply elem_of_seq in Hj. lia.
Qed.

Lemma untilUnused_finds (used : gset jsstring) (build : nat → jsstring) :
  (∀ i j, build i = build j → i = j) →
  ∀ fuel k,
    (∀ j, (j < k)%nat → build j ∈ used) →
    (size used ≤ fuel + k)%nat →
    ∃ k', untilUnused fuel used build (build k) (S k) = Some (build k')
          ∧ (k' ≤ size used)%nat
          ∧ (build k' ∉ used)
          ∧ ∀ j, (j < k')%nat → build j ∈ used.
Proof.
  intros Hinj fuel. induction fuel as [|fuel IH]; intros k Htaken Hsize;
    simpl; destruct (decide (build k ∈ used)) as [Hin|Hout].
  - exfalso.
    assert (S k ≤ size used)%nat; [|lia].
    apply (taken_candidates used build); [done|].
    intros j Hj. destruct (decide (j = k)) as [->|]; [done|].
    apply Htaken. lia.
  - rewrite bool_decide_eq_false_2 by done. exists k.
    split; [done|]. split; [by apply (taken_candidates used build)|done].
  - rewrite bool_decide_eq_true_2 by done. apply IH; [|lia].
    intros j Hj. destruct (decide (j = k)) as [->|]; [done|].
    apply Htaken. lia.
  - rewrite bool_decide_eq_false_2 by done. exists k.
    split; [done|]. split; [by apply (taken_candidates used build)|done].
Qed.

(** X25. For every set of names taken, the search for a file name ends
    within as many further iterations as there are names taken, and it
    returns the candidate of the first index whose name is free: the
    candidates of all smaller indices are taken, and the candidates of
    different indices differ. *)
Theorem untilUnused_first_free (used : gset jsstring)
    (projectPath sessionName date : jsstring) :
  let build := buildFilename projectPath sessionName date in
  (∀ i j, build i = build j → i = j)
  ∧ ∃ k, untilUnused (size used) used build (build 0%nat) 1
         = Some (build k)
         ∧ (k ≤ size used)%nat
         ∧ (build k ∉ used)
         ∧ ∀ j, (j < k)%nat → build j ∈ used.
Proof.
  intros build. split; [apply buildFilename_inj|].
  apply (untilUnused_finds used build (buildFilename_inj _ _ _)).
  - intros j Hj. lia.
  - lia.
Qed.

(** *** The loop of the export *)

Section ExportRun.
Context {Message : Type}.
Variable timestamp : Message → option jsstring.
Variable load_session_messages : nat → jsstring → option (list Message).
Variable write_text_file : nat → jsstring → jsstring → bool.
Variable sessionToMarkdown :
  list Message → ExportSessionInfo → option jsstring.
Variable now : nat → jsstring.

Local Abbreviation entry_step :=
  (exportEntry timestamp load_session_messages write_text_file
     sessionToMarkdown now).
Local Abbreviation loop :=
  (exportLoop timestamp load_session_messages write_text_file
     sessionToMarkdown now).

Lemma exportEntry_step (folder : jsstring) (total i : nat)
    (entry : jsstring * ExportSessionInfo) (run : Run) :
  run_ok folder run →
  ∃ run', entry_step folder total i entry run = Some run'
          ∧ run_ok folder run'
          ∧ (exported run' + failed run' = S (exported run + failed run))%nat
          ∧ (length (written run') ≤ S (length (written run)))%nat.
Proof.
  intros (Hnd & Hpaths & Hexp). destruct entry as [filePath info].
  unfold exportEntry.
  destruct (load_session_messages i filePath) as [[|first rest]|].
  - eexists. split; [reflexivity|]. simpl.
    split; [done|]. split; lia.
  - set (build := buildFilename (projectPath info) (sessionName info)
                    (default (now i) (timestamp first))).
    destruct (untilUnused_finds (usedFilenames run) build
                (buildFilename_inj _ _ _) (size (usedFilenames run)) 0)
      as (k & -> & _ & Hfree & _); [intros j Hj; lia|lia|].
    destruct (sessionToMarkdown (first :: rest) info) as [markdown|].
    2:{ eexists. split; [reflexivity|].
        unfold run_ok. cbn [written usedFilenames exported failed].
        split; [|split; lia]. split; [done|]. split; [|done].
        intros path Hpath. destruct (Hpaths _ Hpath) as (name & Hname & ->).
        exists name. split; [|done]. apply elem_of_union. by right. }
    eexists. split; [reflexivity|].
    unfold run_ok. cbn [written usedFilenames exported failed].
    split; [|split].
    + split; [|split].
      * rewrite fmap_app. apply NoDup_app. split; [done|].
        split; [|apply NoDup_singleton].
        intros path Hpath ->%list_elem_of_singleton.
        destruct (Hpaths _ Hpath) as (name & Hname & Heq).
        apply app_inv_head, app_inv_head in Heq. by subst name.
      * intros path. rewrite fmap_app, elem_of_app. intros [Hpath|Hpath].
        -- destruct (Hpaths _ Hpath) as (name & Hname & ->).
           exists name. split; [|done]. apply elem_of_union. by right.
        -- apply list_elem_of_singleton in Hpath as ->.
           exists (build k). split; [|done].
           apply elem_of_union. left. by apply elem_of_singleton.
      * rewrite length_app. simpl.
        destruct (write_text_file i _ _); lia.
    + destruct (write_text_file i _ _); lia.
    + rewrite length_app. simpl. lia.
  - eexists. split; [reflexivity|]. simpl.
    split; [done|]. split; lia.
Qed.

Lemma exportLoop_runs (folder : jsstring) (total : nat)
    (entries : list (jsstring * ExportSessionInfo)) :
  ∀ i run,
    run_ok folder run →
    ∃ run', loop folder total i entries run = Some run'
            ∧ run_ok folder run'
            ∧ (exported run' + failed run'
               = exported run + failed run + length entries)%nat
            ∧ (length (written run')
               ≤ length (written run) + length entries)%nat.
Proof.
  induction entries as [|entry rest IH]; intros i run Hok; simpl.
  - exists run. split; [done|]. split; [done|]. split; lia.
  - destruct (exportEntry_step folder total i entry run Hok)
      as (run1 & -> & Hok1 & Hcount1 & Hlen1).
    destruct (IH (S i) run1 Hok1) as (run' & -> & Hok' & Hcount & Hlen).
    exists run'. split; [done|]. split; [done|]. split; lia.
Qed.

Lemma initialRun_ok (folder : jsstring) : run_ok folder initialRun.
Proof.
  repeat split; simpl; [constructor| |lia].
  intros path Hpath. by apply elem_of_nil in Hpath.
Qed.


(** X27. For every choice of folder and every selection, whatever the
    calls to the backend return, one export never writes the same path
    twice, and every path written is the folder, a slash and a file name
    recorded as taken. *)
Theorem exportSessions_distinct_paths (folder : option jsstring)
    (selected : JsMap ExportSessionInfo) :
  ∃ result,
    exportSessions timestamp load_session_messages write_text_file
      sessionToMarkdown now folder selected
    = Some result
    ∧ ∀ run toast, result = Some (run, toast) →
        NoDup (fst <$> written run)
        ∧ ∀ path, path ∈ fst <$> written run →
            ∃ dir name, folder = Some dir
                        ∧ name ∈ usedFilenames run
                        ∧ path = dir ++ js "/" ++ name.
Proof.
  unfold exportSessions.
  destruct folder as [[|c folder]|]; simpl;
    [eexists; split; [reflexivity|done]
    | |eexists; split; [reflexivity|done]].
  destruct (exportLoop_runs (c :: folder) (length selected) selected 0
              initialRun (initialRun_ok _))
    as (run & -> & (Hnd & Hpaths & _) & _).
  eexists. split; [reflexivity|].
  intros run' toast [= <- _]. split; [done|].
  intros path Hpath. destruct (Hpaths _ Hpath) as (name & Hname & ->).
  by exists (c :: folder), name.
Qed.

End ExportRun.

(** Two sessions of one project with the same name and date: the second
    file gets the suffix [_2]; each file holds the text made from all the
    messages of its session. *)
Example exportSessions_collision :
  (λ r, written (fst r))
  <$> mjoin
        (exportSessions (Message := jsstring) (λ m, Some m)
           (λ _ _, Some [js "2026-01-15T14:32:01.000Z"; js "2026-01-16"])
           (λ _ _ _, true) (λ ms _, Some (concat ms)) (λ _, js "now")
           (Some (js "/out"))
           [ (js "/s/a.jsonl",
              {| sessionName := js "S"; projectName := js "p";
                 projectPath := js "/Users/me/p";
                 providerId := js "claude" |});
             (js "/s/b.jsonl",
              {| sessionName := js "S"; projectName := js "p";
                 projectPath := js "/Users/me/p";
                 providerId := js "claude" |}) ])
  = Some [ (js "/out/p_2026-01-15_S.md",
            js "2026-01-15T14:32:01.000Z2026-01-16");
           (js "/out/p_2026-01-15_S_2.md",
            js "2026-01-15T14:32:01.000Z2026-01-16") ].
Proof. by vm_compute. Qed.

End ExportSessionsFacts.
